(** * Cache-Wiped: a shallow embedding of [cache.py] and its verified properties

    The development follows the layout of the program:
    - Python values, exceptions and strings ([result], [pyval], [upper], ...);
    - the pattern catalogue [CACHE_TYPES] and the matching loops of [scan_dir];
    - the file-system interface the scanner and the cleaner talk to, with
      [get_size], [scan_dir] and [scan_global] written over it;
    - the history store ([load_history], [save_history], [add_session]);
    - the cleaner ([clean_matches]) and the minimum-size option of [scan];
    - what is printed ([fmt_size], [show_results]) and the commands [scan]
      and [stats] that put the pieces together;
    - a small POSIX-like file system with symbolic links that instantiates
      the interface, used to run the definitions on concrete trees.

    Definitions come first; the theorems about them follow in the second
    half of the file. *)

From Stdlib Require Import ZArith String Ascii List Lia Permutation Bool DecimalString.
From stdpp Require Import base option list sets gmap strings sorting.

Open Scope string_scope.
Open Scope list_scope.
Open Scope Z_scope.

(* ================================================================== *)
(** * Part I: the program                                              *)
(* ================================================================== *)

(** ** Exceptions and fallible computations

    A Python call either returns a value or raises.  Only the exception
    classes the program can meet are listed; all of them derive from
    [Exception], the first three from [OSError]. *)

Inductive exn : Type :=
  | PermissionError
  | FileNotFoundError
  | OSError
  | ValueError
  | OverflowError
  | AttributeError
  | RuntimeError
  | RecursionError.

Inductive result (A : Type) : Type :=
  | Ok (a : A)
  | Raise (e : exn).

Arguments Ok {A} a.
Arguments Raise {A} e.

#[global] Instance result_ret : MRet result := fun _ a => Ok a.

#[global] Instance result_bind : MBind result := fun _ _ f m =>
  match m with
  | Ok a => f a
  | Raise e => Raise e
  end.

#[global] Instance exn_eq_dec : EqDecision exn.
Proof. solve_decision. Defined.

(** [try: return m except Exception: return fallback] (also the bare
    [except:]); nothing is raised past it. *)
Definition try_except {A} (m : result A) (fallback : A) : A :=
  match m with
  | Ok a => a
  | Raise _ => fallback
  end.

Definition is_Ok {A} (m : result A) : bool :=
  match m with Ok _ => true | Raise _ => false end.

(** ** Python values read from and written to JSON *)

#[warnings="-register-all"]
Inductive pyval : Type :=
  | PNone
  | PBool (b : bool)
  | PInt (n : Z)
  | PFloat (mantissa exponent : Z)
  | PStr (s : string)
  | PList (items : list pyval)
  | PDict (items : list (string * pyval)).

(** [key in d] and [d[key]] on a [dict] kept as an association list. *)
Fixpoint dict_get (key : string) (items : list (string * pyval)) : option pyval :=
  match items with
  | [] => None
  | (k, v) :: rest => if String.eqb k key then Some v else dict_get key rest
  end.

(** ** Strings *)

(** [str.upper] on ASCII text. *)
Definition upper_ascii (c : ascii) : ascii :=
  let n := N_of_ascii c in
  if ((97 <=? n) && (n <=? 122))%N then ascii_of_N (n - 32) else c.

Fixpoint upper (s : string) : string :=
  match s with
  | EmptyString => EmptyString
  | String c rest => String (upper_ascii c) (upper rest)
  end.

(** [s.endswith(suffix)]: some tail of [s] is [suffix]. *)
Fixpoint endswith (s suffix : string) : bool :=
  if String.eqb s suffix then true
  else match s with
       | EmptyString => false
       | String _ rest => endswith rest suffix
       end.

(** [s.startswith("*")]. *)
Definition startswith_star (s : string) : bool :=
  match s with
  | String "*"%char _ => true
  | _ => false
  end.

(** [s[1:]]. *)
Definition tail_from_1 (s : string) : string :=
  match s with
  | EmptyString => EmptyString
  | String _ rest => rest
  end.

(** [s[:-2]]. *)
Definition drop_last_2 (s : string) : string :=
  substring 0 (String.length s - 2) s.

(** [s[:16]]. *)
Definition take_16 (s : string) : string := substring 0 16 s.

(** ** The pattern catalogue

    A Python [dict] iterates in insertion order, so the nested dictionaries
    of [CACHE_TYPES] are association lists in the order of the source. *)

Definition cache_type : Type := string * (list string * string).
Definition category : Type := string * list cache_type.

Definition CACHE_TYPES : list category :=
  [ ("node",
      [ ("node_modules", (["node_modules"], "Node.js dependencies"));
        ("node_cache", ([".cache"; ".parcel-cache"; ".next/cache"; ".nuxt"; ".turbo"], "Build caches")) ]);
    ("python",
      [ ("pycache", (["__pycache__"; "*.pyc"], "Python bytecode"));
        ("venv", ([".venv"; "venv"; ".env"; "env"], "Virtual environments"));
        ("pytest", ([".pytest_cache"; ".mypy_cache"; ".ruff_cache"; ".tox"], "Test/lint caches"));
        ("eggs", (["*.egg-info"; ".eggs"; "dist"; "build"], "Build artifacts")) ]);
    ("rust",
      [ ("target", (["target"], "Rust build output")) ]);
    ("go",
      [ ("go_build", (["go-build"], "Go build cache")) ]);
    ("java",
      [ ("gradle", ([".gradle"; "build"], "Gradle cache")) ]);
    ("dotnet",
      [ ("dotnet", (["bin"; "obj"], ".NET build output")) ]);
    ("misc",
      [ ("coverage", (["coverage"; ".coverage"; "htmlcov"; ".nyc_output"], "Coverage reports"));
        ("logs", (["*.log"; "logs"], "Log files"));
        ("temp", (["tmp"; "temp"; ".tmp"], "Temp files"));
        ("os", ([".DS_Store"; "Thumbs.db"], "OS files")) ]) ].

(** The test of one pattern against an entry name (the body of the
    innermost loop of [scan_dir]). *)
Definition pattern_matches (pattern name : string) : bool :=
  if startswith_star pattern then endswith name (tail_from_1 pattern)
  else String.eqb name pattern.

(** [for pattern in patterns: ... if matched: ... break]. *)
Fixpoint match_patterns (name : string) (patterns : list string) : bool :=
  match patterns with
  | [] => false
  | pattern :: rest =>
      if pattern_matches pattern name then true else match_patterns name rest
  end.

(** [for type_name, (patterns, _) in types.items(): ... if matched: break]. *)
Fixpoint match_types (name : string) (types : list cache_type) : option string :=
  match types with
  | [] => None
  | (type_name, (patterns, _)) :: rest =>
      if match_patterns name patterns then Some type_name else match_types name rest
  end.

(** [if categories and cat not in categories: continue]: an absent or
    empty filter lets every category through. *)
Definition category_allowed (categories : option (list string)) (cat : string) : bool :=
  match categories with
  | None | Some [] => true
  | Some cats => bool_decide (cat ∈ cats)
  end.

(** [for cat, types in CACHE_TYPES.items(): ... if matched: break]. *)
Fixpoint match_categories (categories : option (list string)) (name : string)
    (table : list category) : option (string * string) :=
  match table with
  | [] => None
  | (cat, types) :: rest =>
      if category_allowed categories cat then
        match match_types name types with
        | Some type_name => Some (cat, type_name)
        | None => match_categories categories name rest
        end
      else match_categories categories name rest
  end.

Definition match_entry (categories : option (list string)) (name : string)
    : option (string * string) :=
  match_categories categories name CACHE_TYPES.

(** ** Paths and the file-system interface

    A [Path] is the list of its components below the file-system root;
    [path / name] appends a component.  The scanner and the cleaner reach
    the disk only through the operations below, each named after the
    [pathlib], [os] or [shutil] call it stands for.  A state [σ : fs] is one
    snapshot of the disk; the deleting operations return the next one. *)

Definition path : Type := list string.

(** [path.name]: the last component, empty for the root. *)
Definition name (p : path) : string := List.last p "".

Class FileSystem (fs : Type) : Type := {
  (** [Path.exists], [Path.is_file], [Path.is_dir]: they follow symbolic
      links and answer [False] rather than raise. *)
  fs_exists : fs -> path -> bool;
  fs_is_file : fs -> path -> bool;
  fs_is_dir : fs -> path -> bool;
  (** [Path.iterdir]: the names in a directory, or the exception raised. *)
  fs_iterdir : fs -> path -> result (list string);
  (** [Path.stat().st_size]; [None] stands for an [OSError]. *)
  fs_stat_size : fs -> path -> option Z;
  (** [Path.rglob("*")]: the paths yielded before the walk stops. *)
  fs_rglob : fs -> path -> list path;
  (** [Path.resolve]: the canonical path, symbolic links resolved. *)
  fs_resolve : fs -> path -> path;
  (** [Path.unlink] and [shutil.rmtree]: the disk afterwards, and the
      exception raised if the call failed (possibly half-way). *)
  fs_unlink : fs -> path -> fs * result unit;
  fs_rmtree : fs -> path -> fs * result unit
}.

Record Match : Type := mkMatch {
  m_path : path;
  m_category : string;
  m_cache_type : string;
  m_size : Z
}.

#[global] Instance Match_eq_dec : EqDecision Match.
Proof. solve_decision. Defined.

(** [sorted(matches, key=lambda m: m.size, reverse=True)]: a stable sort in
    descending order of size (equal sizes keep their order), written as an
    insertion sort. *)
Fixpoint insert_by_size (m : Match) (sorted : list Match) : list Match :=
  match sorted with
  | [] => [m]
  | m' :: rest =>
      if m_size m' <=? m_size m then m :: m' :: rest
      else m' :: insert_by_size m rest
  end.

Fixpoint sorted_by_size_desc (matches : list Match) : list Match :=
  match matches with
  | [] => []
  | m :: rest => insert_by_size m (sorted_by_size_desc rest)
  end.

Definition skip_dirs : list string :=
  [".git"; ".hg"; ".svn"; "$RECYCLE.BIN"; "Windows"; "Program Files"].

(** The two objects the closure [scan] of [scan_dir] mutates. *)
Record scan_state : Type := mkScan {
  seen : gset path;
  matches : list Match
}.

Section Scanner.
Context {fs : Type} `{FileSystem fs}.
Variable σ : fs.

Definition get_size (p : path) : result Z :=
  if negb (fs_exists σ p) then Ok 0
  else if fs_is_file σ p then
    match fs_stat_size σ p with
    | Some size => Ok size
    | None => Raise OSError
    end
  else
    Ok (fold_left
          (fun total f =>
             if fs_is_file σ f then
               match fs_stat_size σ f with
               | Some size => total + size
               | None => total
               end
             else total)
          (fs_rglob σ p) 0).

Variable categories : option (list string).
Variable max_depth : option Z.
Variable min_size : Z.
(** [root] after [root.resolve()], and [len(root.parts)]. *)
Variable root : path.

(** [max_depth and len(path.parts) - base_depth > max_depth]: an absent
    limit and the limit [0] are both falsy. *)
Definition too_deep (p : path) : bool :=
  match max_depth with
  | None => false
  | Some d =>
      negb (d =? 0) && (d <? Z.of_nat (length p) - Z.of_nat (length root))
  end.

(** One turn of [for entry in entries], with the recursive call [scan]
    passed in. *)
Definition scan_entry (scan : path -> scan_state -> result scan_state)
    (entry : path) (st : scan_state) : result scan_state :=
  if bool_decide (entry ∈ seen st) then Ok st
  else
    match match_entry categories (name entry) with
    | Some (cat, type_name) =>
        size ← get_size entry;
        if min_size <=? size
        then Ok (mkScan ({[entry]} ∪ seen st)
                        (matches st ++ [mkMatch entry cat type_name size]))
        else Ok st
    | None =>
        if fs_is_dir σ entry then scan entry st else Ok st
    end.

Fixpoint scan_entries (scan : path -> scan_state -> result scan_state)
    (entries : list path) (st : scan_state) : result scan_state :=
  match entries with
  | [] => Ok st
  | entry :: rest =>
      st' ← scan_entry scan entry st;
      scan_entries scan rest st'
  end.

(** The closure [scan].  Python bounds the depth of the recursion; the
    bound is [fuel], and running out of it is a [RecursionError]. *)
Fixpoint scan (fuel : nat) (p : path) (st : scan_state) : result scan_state :=
  match fuel with
  | O => Raise RecursionError
  | S fuel' =>
      if bool_decide (p ∈ seen st) || negb (fs_exists σ p) then Ok st
      else if bool_decide (name p ∈ skip_dirs) then Ok st
      else if too_deep p then Ok st
      else
        match fs_iterdir σ p with
        | Ok names => scan_entries (scan fuel') (map (fun n => p ++ [n]) names) st
        | Raise PermissionError => Ok st
        | Raise e => Raise e
        end
  end.

End Scanner.

Arguments too_deep max_depth root p : simpl never.

Definition scan_dir {fs} `{FileSystem fs} (fuel : nat) (σ : fs) (root : path)
    (categories : option (list string)) (max_depth : option Z) (min_size : Z)
    : result (list Match) :=
  let root := fs_resolve σ root in
  st ← scan σ categories max_depth min_size root fuel root (mkScan ∅ []);
  Ok (sorted_by_size_desc (matches st)).

(** The default of [min_size], [1024*1024]. *)
Definition DEFAULT_MIN_SIZE : Z := 1024 * 1024.

(** ** Global caches *)

(** What [Path.home()] and [os.name == "nt"] answer. *)
Record environment : Type := mkEnv {
  home : result path;
  os_name_nt : bool
}.

Definition under_home (env : environment) (nt other : path) : result path :=
  h ← home env;
  Ok (h ++ (if os_name_nt env then nt else other)).

Definition GLOBAL_CACHES (env : environment) : list (string * result path) :=
  [ ("npm", under_home env ["AppData"; "Local"; "npm-cache"] [".npm"]);
    ("yarn", under_home env ["AppData"; "Local"; "Yarn"; "Cache"] [".cache"; "yarn"]);
    ("pip", under_home env ["AppData"; "Local"; "pip"; "cache"] [".cache"; "pip"]);
    ("cargo", under_home env [".cargo"; "registry"; "cache"] [".cargo"; "registry"; "cache"]);
    ("go", under_home env ["AppData"; "Local"; "go-build"] [".cache"; "go-build"]) ].

(** One turn of the loop of [scan_global]: the body of its [try], and
    [except Exception: pass]. *)
Definition scan_global_entry {fs} `{FileSystem fs} (σ : fs) (min_size : Z)
    (found : list Match) (cache : string * result path) : list Match :=
  let '(cache_name, get_path) := cache in
  try_except
    (p ← get_path;
     if fs_exists σ p then
       size ← get_size σ p;
       if min_size <=? size
       then Ok (found ++ [mkMatch p "global" cache_name size])
       else Ok found
     else Ok found)
    found.

Definition scan_global {fs} `{FileSystem fs} (σ : fs) (env : environment)
    (min_size : Z) : list Match :=
  sorted_by_size_desc
    (fold_left (scan_global_entry σ min_size) (GLOBAL_CACHES env) []).

(** ** The history store

    [history.json] holds text; [json.loads] and [json.dumps] are the
    library's and enter as an interface.  The state of the store is the
    content of the file, [None] while the file does not exist. *)

Class JsonCodec (text : Type) : Type := {
  json_loads : text -> result pyval;
  json_dumps : pyval -> text
}.

(** What the library promises of values made of lists, dictionaries with
    string keys, strings, numbers, booleans and [None]: reading back what
    was written gives the value written. *)
Definition round_trip {text} `{JsonCodec text} : Prop :=
  forall v : pyval, json_loads (json_dumps v) = Ok v.

(** [sessions[-100:]]. *)
Definition last_100 {A} (sessions : list A) : list A :=
  drop (length sessions - 100)%nat sessions.

Section History.
Context {text : Type} `{JsonCodec text}.

Definition load_history (file : option text) : pyval :=
  match file with
  | None => PList []
  | Some content =>
      try_except
        (data ← json_loads content;
         Ok match data with
            | PDict items =>
                match dict_get "sessions" items with
                | Some sessions => sessions
                | None => PList []
                end
            | PList _ => data
            | _ => PList []
            end)
        (PList [])
  end.

Definition save_history (sessions : list pyval) : option text :=
  Some (json_dumps (PList (last_100 sessions))).

(** The dictionary [add_session] appends; [now] is
    [datetime.now().isoformat()]. *)
Definition session_record (now scan_path : string) (size items : Z)
    (dry_run : bool) : pyval :=
  PDict [ ("date", PStr (take_16 now));
          ("path", PStr scan_path);
          ("size", PInt size);
          ("items", PInt items);
          ("dry_run", PBool dry_run) ].

(** [h.append] exists on lists only: on any other value the call raises
    [AttributeError] and nothing is written. *)
Definition add_session (file : option text) (now scan_path : string)
    (size items : Z) (dry_run : bool) : result (option text) :=
  match load_history file with
  | PList h => Ok (save_history (h ++ [session_record now scan_path size items dry_run]))
  | _ => Raise AttributeError
  end.

End History.

(** ** The cleaner *)

(** The disk and the history file, the two things [clean_matches] can
    change. *)
Record world (fs text : Type) : Type := mkWorld {
  disk : fs;
  history : option text
}.

Arguments mkWorld {fs text} disk history.
Arguments disk {fs text} w.
Arguments history {fs text} w.

(** What [clean_matches] shows on the console: nothing for an empty list,
    the preview panel, the abort line, or the final panel with the counts. *)
Inductive report : Type :=
  | Nothing
  | Preview (total : Z)
  | Aborted
  | Done (deleted freed : Z).

(** [sum(m.size for m in matches)]. *)
Definition total_size (ms : list Match) : Z :=
  fold_left (fun acc m => acc + m_size m) ms 0.

Section Cleaner.
Context {fs text : Type} `{FileSystem fs} `{JsonCodec text}.

(** The body of the [try] in the deletion loop. *)
Definition delete_match (σ : fs) (m : Match) : fs * result unit :=
  if fs_is_file σ (m_path m) then fs_unlink σ (m_path m)
  else fs_rmtree σ (m_path m).

(** [for m in matches: try: ... except Exception: pass], with the two
    counters [freed] and [deleted]. *)
Fixpoint delete_all (σ : fs) (ms : list Match) (freed deleted : Z) : fs * (Z * Z) :=
  match ms with
  | [] => (σ, (freed, deleted))
  | m :: rest =>
      match delete_match σ m with
      | (σ', Ok _) => delete_all σ' rest (freed + m_size m) (deleted + 1)
      | (σ', Raise _) => delete_all σ' rest freed deleted
      end
  end.

(** [clean_matches].  [now] is the clock read by [add_session] and
    [confirm] the answer [click.confirm] gets if it is asked.  The result
    is the world afterwards with what was shown, or the exception that
    left the function. *)
Definition clean_matches (w : world fs text) (now : string) (confirm : bool)
    (ms : list Match) (dry_run : bool) (scan_path : string)
    (skip_confirm : bool) : world fs text * result report :=
  match ms with
  | [] => (w, Ok Nothing)
  | _ =>
      let total := total_size ms in
      if dry_run then
        match add_session (history w) now scan_path total (Z.of_nat (length ms)) true with
        | Ok file => (mkWorld (disk w) file, Ok (Preview total))
        | Raise e => (w, Raise e)
        end
      else if negb skip_confirm && negb confirm then (w, Ok Aborted)
      else
        let '(σ, (freed, deleted)) := delete_all (disk w) ms 0 0 in
        match add_session (history w) now scan_path freed deleted false with
        | Ok file => (mkWorld σ file, Ok (Done deleted freed))
        | Raise e => (mkWorld σ (history w), Raise e)
        end
  end.

End Cleaner.

(** ** The minimum size given to [scan]

    [float], the product of a float by an integer and [int] are Python's;
    they enter as an interface, with the exceptions they can raise. *)

Class PyFloat (float : Type) : Type := {
  float_of_str : string -> result float;
  float_mul : float -> Z -> float;
  int_of_float : float -> result Z
}.

(** The lines of [scan] under [# Parse min size]. *)
Definition min_bytes_of {float} `{PyFloat float} (min_size : string) : result Z :=
  let ms := upper min_size in
  if endswith ms "GB" then
    x ← float_of_str (drop_last_2 ms); int_of_float (float_mul x (1024 ^ 3))
  else if endswith ms "MB" then
    x ← float_of_str (drop_last_2 ms); int_of_float (float_mul x (1024 ^ 2))
  else if endswith ms "KB" then
    x ← float_of_str (drop_last_2 ms); int_of_float (float_mul x 1024)
  else Ok (1024 * 1024).

(** ** A concrete file system

    A tree of files, directories and symbolic links with absolute targets,
    enough of POSIX to run the scanner and the cleaner: paths are resolved
    one component at a time, following links (at most [MAXSYMLINKS] of
    them); a directory lists its entries only if readable and lets entries
    be removed only if writable. *)

Module Posix.

#[warnings="-register-all"]
Inductive node : Type :=
  | File (size : Z)
  | Dir (readable writable : bool) (entries : list (string * node))
  | Symlink (target : path).

Fixpoint child (c : string) (entries : list (string * node)) : option node :=
  match entries with
  | [] => None
  | (c', n) :: rest => if String.eqb c' c then Some n else child c rest
  end.

Fixpoint remove_child (c : string) (entries : list (string * node))
    : list (string * node) :=
  match entries with
  | [] => []
  | (c', n) :: rest =>
      if String.eqb c' c then rest else (c', n) :: remove_child c rest
  end.

Fixpoint replace_child (c : string) (n : node) (entries : list (string * node))
    : list (string * node) :=
  match entries with
  | [] => []
  | (c', n') :: rest =>
      if String.eqb c' c then (c, n) :: rest
      else (c', n') :: replace_child c n rest
  end.

(** The canonical path and the node a path leads to, links followed. *)
Fixpoint resolve_at (fuel : nat) (root : node) (p : path) : option (path * node) :=
  let fix go (canon : path) (n : node) (rest : path) {struct rest} :=
    match rest with
    | [] => Some (canon, n)
    | c :: rest' =>
        match n with
        | Dir _ _ entries =>
            match child c entries with
            | None => None
            | Some (Symlink target) =>
                match fuel with
                | O => None
                | S fuel' =>
                    match resolve_at fuel' root target with
                    | Some (canon', n') => go canon' n' rest'
                    | None => None
                    end
                end
            | Some n' => go (canon ++ [c]) n' rest'
            end
        | _ => None
        end
    end
  in go [] root p.

Definition MAXSYMLINKS : nat := 40.

Definition lookup (root : node) (p : path) : option (path * node) :=
  resolve_at MAXSYMLINKS root p.

Definition exists_ (root : node) (p : path) : bool :=
  match lookup root p with Some _ => true | None => false end.

Definition is_file (root : node) (p : path) : bool :=
  match lookup root p with Some (_, File _) => true | _ => false end.

Definition is_dir (root : node) (p : path) : bool :=
  match lookup root p with Some (_, Dir _ _ _) => true | _ => false end.

Definition iterdir (root : node) (p : path) : result (list string) :=
  match lookup root p with
  | Some (_, Dir readable _ entries) =>
      if readable then Ok (map fst entries) else Raise PermissionError
  | Some _ => Raise OSError
  | None => Raise FileNotFoundError
  end.

Definition stat_size (root : node) (p : path) : option Z :=
  match lookup root p with
  | Some (_, File size) => Some size
  | Some _ => Some 4096
  | None => None
  end.

(** Everything below a node, parents before children; links met on the
    way are listed but not entered. *)
Fixpoint walk (p : path) (n : node) : list path :=
  match n with
  | Dir true _ entries =>
      (fix each (es : list (string * node)) : list path :=
         match es with
         | [] => []
         | (c, k) :: es' => (p ++ [c]) :: walk (p ++ [c]) k ++ each es'
         end) entries
  | _ => []
  end.

Definition rglob (root : node) (p : path) : list path :=
  match lookup root p with
  | Some (_, n) => walk p n
  | None => []
  end.

Definition resolve (root : node) (p : path) : path :=
  match lookup root p with
  | Some (canon, _) => canon
  | None => p
  end.

(** Rewrite the entries of the directory at a canonical path. *)
Fixpoint alter_dir (p : path) (f : list (string * node) -> list (string * node))
    (n : node) : node :=
  match n with
  | Dir r w entries =>
      match p with
      | [] => Dir r w (f entries)
      | c :: p' =>
          Dir r w (map (fun e : string * node =>
                          if String.eqb (fst e) c
                          then (fst e, alter_dir p' f (snd e)) else e)
                       entries)
      end
  | _ => n
  end.

(** [p] split into its parent and its last component. *)
Definition split_last (p : path) : option (path * string) :=
  match rev p with
  | [] => None
  | c :: parent => Some (rev parent, c)
  end.

Definition unlink (root : node) (p : path) : node * result unit :=
  match split_last p with
  | None => (root, Raise PermissionError)
  | Some (parent, c) =>
      match lookup root parent with
      | Some (canon, Dir _ writable entries) =>
          match child c entries with
          | None => (root, Raise FileNotFoundError)
          | Some (Dir _ _ _) => (root, Raise PermissionError)
          | Some _ =>
              if writable
              then (alter_dir canon (remove_child c) root, Ok ())
              else (root, Raise PermissionError)
          end
      | _ => (root, Raise FileNotFoundError)
      end
  end.

(** Empty a directory the way [shutil.rmtree] does: entry by entry,
    directories first emptied and then removed, stopping at the first
    entry that cannot go.  The node left behind, and whether it is now an
    empty directory. *)
Fixpoint empty_node (n : node) : node * bool :=
  match n with
  | Dir true w entries =>
      let '(remaining, ok) :=
        (fix each (es : list (string * node)) : list (string * node) * bool :=
           match es with
           | [] => ([], true)
           | (c, k) :: es' =>
               match k with
               | Dir _ _ _ =>
                   let '(k', ok) := empty_node k in
                   if ok && w then each es' else ((c, k') :: es', false)
               | _ => if w then each es' else ((c, k) :: es', false)
               end
           end) entries in
      (Dir true w remaining, ok)
  | _ => (n, false)
  end.

Definition rmtree (root : node) (p : path) : node * result unit :=
  match split_last p with
  | None => (root, Raise PermissionError)
  | Some (parent, c) =>
      match lookup root parent with
      | Some (canon, Dir _ writable entries) =>
          match child c entries with
          | None => (root, Raise FileNotFoundError)
          | Some (Dir r w es) =>
              let '(d, ok) := empty_node (Dir r w es) in
              if ok && writable
              then (alter_dir canon (remove_child c) root, Ok ())
              else (alter_dir canon (replace_child c d) root, Raise PermissionError)
          | Some _ => (root, Raise OSError)
          end
      | _ => (root, Raise FileNotFoundError)
      end
  end.

#[global] Instance file_system : FileSystem node := {|
  fs_exists := exists_;
  fs_is_file := is_file;
  fs_is_dir := is_dir;
  fs_iterdir := iterdir;
  fs_stat_size := stat_size;
  fs_rglob := rglob;
  fs_resolve := resolve;
  fs_unlink := unlink;
  fs_rmtree := rmtree
|}.

(** A directory anyone may read and change. *)
Definition dir (entries : list (string * node)) : node := Dir true true entries.

Definition MiB : Z := 1024 * 1024.

(** The tree of the scenario of the specification:
    [project/node_modules] with 40 MiB of files and
    [project/src/__pycache__] with 2 MiB. *)
Definition project_tree : node :=
  dir [ ("project",
          dir [ ("node_modules",
                  dir [ ("left-pad", dir [ ("index.js", File (15 * MiB)) ]);
                        ("react", dir [ ("react.js", File (25 * MiB)) ]) ]);
                ("src",
                  dir [ ("main.py", File 2048);
                        ("__pycache__", dir [ ("main.cpython-312.pyc", File (2 * MiB)) ]) ]) ]) ].

(** [/r/b] is a symbolic link to the directory [/r/a], which holds a
    2 MiB [node_modules]. *)
Definition linked_tree : node :=
  dir [ ("r",
          dir [ ("a", dir [ ("node_modules", dir [ ("x.js", File (2 * MiB)) ]) ]);
                ("b", Symlink ["r"; "a"]) ]) ].

(** Three matched directories; [dist] is read-only, so its file cannot be
    removed. *)
Definition locked_tree : node :=
  dir [ ("w",
          dir [ ("node_modules", dir [ ("a.js", File (3 * MiB)) ]);
                ("dist", Dir true false [ ("app.bin", File (2 * MiB)) ]);
                ("target", dir [ ("debug", dir [ ("main.o", File MiB) ]) ]) ]) ].

End Posix.

(** ** Small instances of the library interfaces *)

(** History text taken up to what [json.loads] makes of it: [Some v] for a
    text that parses to [v], [None] for one that does not parse. *)
#[global] Instance parsed_text : JsonCodec (option pyval) := {|
  json_loads t := match t with Some v => Ok v | None => Raise ValueError end;
  json_dumps v := Some v
|}.

Definition is_digit (c : ascii) : bool :=
  let n := N_of_ascii c in ((48 <=? n) && (n <=? 57))%N.

Fixpoint digits_value (acc : Z) (s : string) : option Z :=
  match s with
  | EmptyString => Some acc
  | String c rest =>
      if is_digit c
      then digits_value (10 * acc + Z.of_N (N_of_ascii c) - 48) rest
      else None
  end.

(** Floats restricted to whole numbers written in plain digits: the part
    of [float], [*] and [int] in which nothing is rounded. *)
#[global] Instance whole_floats : PyFloat Z := {|
  float_of_str s :=
    match s with
    | EmptyString => Raise ValueError
    | _ => match digits_value 0 s with
           | Some n => Ok n
           | None => Raise ValueError
           end
    end;
  float_mul x n := x * n;
  int_of_float x := Ok x
|}.

(** ** Vocabulary of the specification

    What the statements of Part II speak about and the program does not
    name: runs of several calls, and the words of the specification written
    out ("the first registered type", "the matches that were deleted"). *)

(** The arguments of one call of [add_session], clock included. *)
Record session_call : Type := mkCall {
  call_now : string;
  call_path : string;
  call_size : Z;
  call_items : Z;
  call_dry_run : bool
}.

Definition record_of (c : session_call) : pyval :=
  session_record (call_now c) (call_path c) (call_size c) (call_items c)
    (call_dry_run c).

(** Calls of [add_session] one after the other; the first exception ends
    the run. *)
Fixpoint add_sessions {text} `{JsonCodec text} (file : option text)
    (calls : list session_call) : result (option text) :=
  match calls with
  | [] => Ok file
  | c :: rest =>
      file' ← add_session file (call_now c) (call_path c) (call_size c)
                (call_items c) (call_dry_run c);
      add_sessions file' rest
  end.

(** The catalogue in registration order, one line per cache type, the
    categories the filter excludes left out. *)
Definition registered (categories : option (list string))
    : list (string * string * list string) :=
  flat_map
    (fun c : category =>
       if category_allowed categories (fst c)
       then map (fun t : cache_type => (fst c, fst t, fst (snd t))) (snd c)
       else [])
    CACHE_TYPES.

(** One line of the catalogue has a pattern that matches the name. *)
Definition line_matches (name : string) (line : string * string * list string) : bool :=
  match_patterns name (snd line).

(** Sizes never go up along a list. *)
Definition size_descending (ms : list Match) : Prop :=
  StronglySorted (fun a b => m_size b <= m_size a) ms.

(** The disk after the cleaner has tried every match of a list, and the
    matches whose deletion went through. *)
Fixpoint disk_after {fs} `{FileSystem fs} (σ : fs) (ms : list Match) : fs :=
  match ms with
  | [] => σ
  | m :: rest => disk_after (fst (delete_match σ m)) rest
  end.

Fixpoint deleted_matches {fs} `{FileSystem fs} (σ : fs) (ms : list Match)
    : list Match :=
  match ms with
  | [] => []
  | m :: rest =>
      let '(σ', r) := delete_match σ m in
      if is_Ok r then m :: deleted_matches σ' rest
      else deleted_matches σ' rest
  end.

(** What the scanner adds to its state when it records a match. *)
Definition record_match (st : scan_state) (m : Match) : scan_state :=
  mkScan ({[m_path m]} ∪ seen st) (matches st ++ [m]).

Section ScanVocabulary.
Context {fs : Type} `{FileSystem fs}.
Variable σ : fs.
Variable categories : option (list string).
Variable min_size : Z.
Variable root : path.

Definition unmatched (n : string) : Prop := match_entry categories n = None.

(** A directory the scanner enters: below the root through names no
    pattern matches. *)
Definition entered (dir : path) : Prop :=
  exists comps, dir = root ++ comps /\ Forall unmatched comps.

(** A recorded match: found in a directory the scanner entered, under a
    name the catalogue assigns to its category and type, with the size
    [get_size] gives, which reaches the threshold. *)
Definition sound_match (m : Match) : Prop :=
  (exists dir n, m_path m = dir ++ [n] /\ entered dir /\
     match_entry categories n = Some (m_category m, m_cache_type m)) /\
  get_size σ (m_path m) = Ok (m_size m) /\
  min_size <= m_size m.

Definition sound_state (st : scan_state) : Prop :=
  Forall sound_match (matches st) /\
  NoDup (map m_path (matches st)) /\
  (forall p, p ∈ map m_path (matches st) -> p ∈ seen st).

End ScanVocabulary.

(** A match whose size is the one [get_size] gives and reaches the
    threshold. *)
Definition reaches_threshold {fs} `{FileSystem fs} (σ : fs) (min_size : Z)
    (m : Match) : Prop :=
  get_size σ (m_path m) = Ok (m_size m) /\ min_size <= m_size m.

(** Python's default limit on the depth of recursion. *)
Definition RECURSION_LIMIT : nat := 1000.

(** The units [scan] knows, in upper case, with their factors. *)
Definition UNITS : list (string * Z) :=
  [ ("KB", 1024); ("MB", 1024 ^ 2); ("GB", 1024 ^ 3) ].

(** 101 dry runs, numbered by their item count. *)
Definition hundred_and_one_calls : list session_call :=
  map (fun i => mkCall "2024-05-01T10:20:30.123456" "/home/dev" 0 (Z.of_nat i) true)
      (seq 0 101).

(** The matches of [Posix.project_tree] and of [Posix.locked_tree] in the
    order the scanner returns them, and two worlds to clean: one whose
    history is still in the old wrapped form, one without a history file. *)
Definition project_matches : list Match :=
  [ mkMatch ["project"; "node_modules"] "node" "node_modules" (40 * Posix.MiB);
    mkMatch ["project"; "src"; "__pycache__"] "python" "pycache" (2 * Posix.MiB) ].

Definition locked_matches : list Match :=
  [ mkMatch ["w"; "node_modules"] "node" "node_modules" (3 * Posix.MiB);
    mkMatch ["w"; "dist"] "python" "eggs" (2 * Posix.MiB);
    mkMatch ["w"; "target"] "rust" "target" Posix.MiB ].

Definition old_record : pyval :=
  PDict [ ("timestamp", PStr "2023-11-02T08:15:00");
          ("scan_path", PStr "/srv");
          ("total_size_bytes", PInt 1234) ].

Definition project_world : world Posix.node (option pyval) :=
  mkWorld Posix.project_tree (Some (Some (PDict [("sessions", PList [old_record])]))).

Definition locked_world : world Posix.node (option pyval) :=
  mkWorld Posix.locked_tree None.

(** [p] lies strictly below [d]. *)
Definition below (d p : path) : Prop := d `prefix_of` p /\ d <> p.

(** A file system whose paths stop at some depth, whose directories can be
    listed unless permission is denied, and whose files can be measured:
    what rules out every exception in a scan but [RecursionError]. *)
Record well_behaved {fs} `{FileSystem fs} (σ : fs) (depth : nat) : Prop := {
  wb_depth : forall p, (depth < length p)%nat -> fs_exists σ p = false;
  wb_iterdir : forall p, fs_is_dir σ p = true ->
      (exists names, fs_iterdir σ p = Ok names) \/ fs_iterdir σ p = Raise PermissionError;
  wb_stat : forall p, fs_is_file σ p = true -> fs_stat_size σ p <> None
}.

(** ** More vocabulary: where a scan looks *)

(** [len(path.parts) - base_depth]. *)
Definition depth_below (root p : path) : Z :=
  Z.of_nat (length p) - Z.of_nat (length root).

(** What [scan] has checked of a directory when it lists it: it exists,
    its name is not in the skip list, and it is not too deep. *)
Definition listed {fs} `{FileSystem fs} (σ : fs) (max_depth : option Z)
    (root dir : path) : Prop :=
  fs_exists σ dir = true /\
  (name dir ∉ skip_dirs) /\
  too_deep max_depth root dir = false.

(** Every directory from the root down to [dir], both included, was
    listed by the scan. *)
Definition way_listed {fs} `{FileSystem fs} (σ : fs) (max_depth : option Z)
    (root dir : path) : Prop :=
  forall anc, root `prefix_of` anc -> anc `prefix_of` dir ->
    listed σ max_depth root anc.

(** A match found in a directory the scan reached by listing every
    directory on the way. *)
Definition on_listed_way {fs} `{FileSystem fs} (σ : fs) (max_depth : option Z)
    (root : path) (m : Match) : Prop :=
  exists dir n,
    m_path m = dir ++ [n] /\ root `prefix_of` dir /\ way_listed σ max_depth root dir.

(** [/r/cache] holds a 3 MiB [node_modules]; [/r/.git] holds another one,
    and so does [/r/a/b]; [/r/build] is a link to nowhere. *)
Definition guarded_tree : Posix.node :=
  Posix.dir
    [ ("r",
        Posix.dir
          [ ("cache", Posix.dir [ ("node_modules", Posix.dir [ ("m.js", Posix.File (3 * Posix.MiB)) ]) ]);
            (".git", Posix.dir [ ("node_modules", Posix.dir [ ("g.js", Posix.File (5 * Posix.MiB)) ]) ]);
            ("a", Posix.dir [ ("b", Posix.dir [ ("node_modules",
                                   Posix.dir [ ("d.js", Posix.File (2 * Posix.MiB)) ]) ]) ]);
            ("build", Posix.Symlink ["nowhere"]) ]) ].

(** No file has a negative size. *)
Definition sizes_nonneg {fs} `{FileSystem fs} (σ : fs) : Prop :=
  forall p size, fs_stat_size σ p = Some size -> 0 <= size.

(** ** Printing sizes

    [fmt_size] divides by 1024 until the number is below 1024.  The first
    division turns the integer into a float, correctly rounded to 53
    significant bits; the later ones divide a float by a power of two and
    are exact.  A float is kept as a whole number times a power of two;
    only what [fmt_size] does with floats is written out, for the positive
    numbers it meets. *)

(** [str(n)] for an integer. *)
Definition str_int (n : Z) : string :=
  DecimalString.NilZero.string_of_int (Z.to_int n).

(** The float [f_mant * 2 ^ f_exp]. *)
Record float64 : Type := mkFloat {
  f_mant : Z;
  f_exp : Z
}.

(** A whole number divided by a power of two, rounded to the nearest whole
    number, ties going to the even one. *)
Definition round_half_even (n shift : Z) : Z :=
  let q := n / 2 ^ shift in
  let r := n mod 2 ^ shift in
  if (2 ^ shift <? 2 * r) || ((2 ^ shift =? 2 * r) && Z.odd q) then q + 1 else q.

(** [b / 1024] for an integer [b >= 1024]: the quotient rounded to 53
    bits, or [OverflowError] when it is too large for a float. *)
Definition int_div_1024 (b : Z) : result float64 :=
  let shift := Z.max 0 (Z.log2 b + 1 - 53) in
  let x := mkFloat (round_half_even b shift) (shift - 10) in
  if 2 ^ 1034 <=? f_mant x * 2 ^ shift then Raise OverflowError else Ok x.

(** [x / 1024] for a float [x >= 1024]. *)
Definition float_div_1024 (x : float64) : float64 :=
  mkFloat (f_mant x) (f_exp x - 10).

(** [x < 1024] for a float. *)
Definition float_lt_1024 (x : float64) : bool :=
  if 0 <=? f_exp x then f_mant x * 2 ^ f_exp x <? 1024
  else f_mant x <? 1024 * 2 ^ (- f_exp x).

(** The number of tenths [f"{x:.1f}"] shows: the exact value rounded to
    one decimal, ties going to the even digit. *)
Definition tenths (x : float64) : Z :=
  if 0 <=? f_exp x then 10 * f_mant x * 2 ^ f_exp x
  else round_half_even (10 * f_mant x) (- f_exp x).

Definition show_tenths (t : Z) : string :=
  str_int (t / 10) +:+ "." +:+ str_int (t mod 10).

(** [f"{x:.1f}"]. *)
Definition format_1f (x : float64) : string := show_tenths (tenths x).

(** The turns of the loop after the first, where [b] is a float. *)
Fixpoint fmt_units (units : list string) (x : float64) : string :=
  match units with
  | [] => format_1f x +:+ " TB"
  | unit :: rest =>
      if float_lt_1024 x then format_1f x +:+ " " +:+ unit
      else fmt_units rest (float_div_1024 x)
  end.

(** [fmt_size] on an integer: the first turn of the loop, with the unit
    [B] and the integer printed as it is, then the others. *)
Definition fmt_size (b : Z) : result string :=
  if b <? 1024 then Ok (str_int b +:+ " B")
  else x ← int_div_1024 b; Ok (fmt_units ["KB"; "MB"; "GB"] x).

(** The unit [fmt_size] uses after [k] divisions. *)
Definition unit_after (k : Z) : string :=
  match k with
  | 0 => "B" | 1 => "KB" | 2 => "MB" | 3 => "GB" | _ => "TB"
  end.

(** ** What [show_results] shows *)

(** [str(path)] for an absolute POSIX path. *)
Definition path_str (p : path) : string := "/" +:+ String.concat "/" p.

(** [path_str] as the table shows it: [if len(path_str) > 50:
    path_str = "..." + path_str[-47:]]. *)
Definition display_path (s : string) : string :=
  if (50 <? String.length s)%nat
  then "..." +:+ substring (String.length s - 47) 47 s
  else s.

(** [by_cat[key] = by_cat.get(key, 0) + size] on a dictionary kept in
    insertion order. *)
Fixpoint dict_add (key : string) (size : Z) (d : list (string * Z))
    : list (string * Z) :=
  match d with
  | [] => [(key, size)]
  | (k, v) :: rest =>
      if String.eqb k key then (k, v + size) :: rest
      else (k, v) :: dict_add key size rest
  end.

(** [d.get(key, 0)]. *)
Fixpoint dict_value (key : string) (d : list (string * Z)) : Z :=
  match d with
  | [] => 0
  | (k, v) :: rest => if String.eqb k key then v else dict_value key rest
  end.

(** The loop [for m in matches: by_cat[m.category] = ...]. *)
Definition by_cat (ms : list Match) : list (string * Z) :=
  fold_left (fun d m => dict_add (m_category m) (m_size m) d) ms [].

(** [sorted(by_cat.items(), key=lambda x: x[1], reverse=True)]. *)
Fixpoint insert_by_total (item : string * Z) (sorted : list (string * Z))
    : list (string * Z) :=
  match sorted with
  | [] => [item]
  | item' :: rest =>
      if snd item' <=? snd item then item :: item' :: rest
      else item' :: insert_by_total item rest
  end.

Fixpoint sorted_by_total_desc (items : list (string * Z)) : list (string * Z) :=
  match items with
  | [] => []
  | item :: rest => insert_by_total item (sorted_by_total_desc rest)
  end.

(** A loop whose body can raise: the first exception ends it. *)
Fixpoint for_each {A B} (f : A -> result B) (l : list A) : result (list B) :=
  match l with
  | [] => Ok []
  | a :: rest => b ← f a; bs ← for_each f rest; Ok (b :: bs)
  end.

(** [enumerate(l, start)]. *)
Fixpoint enumerate {A} (start : Z) (l : list A) : list (Z * A) :=
  match l with
  | [] => []
  | a :: rest => (start, a) :: enumerate (start + 1) rest
  end.

(** What [show_results] puts on the console: the line for an empty list,
    or the numbers of the panel and the rows of the two tables.  The scan
    time, read from the clock, is left out. *)
Inductive shown : Type :=
  | NoCachesFound
  | Results (items : Z) (total : string)
            (categories : list (string * string))
            (top : list (string * string * string * string)).

Definition show_results (ms : list Match) : result shown :=
  match ms with
  | [] => Ok NoCachesFound
  | _ =>
      total ← fmt_size (total_size ms);
      categories ←
        for_each (fun item : string * Z =>
                    size ← fmt_size (snd item); Ok (upper (fst item), size))
                 (sorted_by_total_desc (by_cat ms));
      top ←
        for_each (fun row : Z * Match =>
                    size ← fmt_size (m_size (snd row));
                    Ok (str_int (fst row),
                        display_path (path_str (m_path (snd row))),
                        m_cache_type (snd row),
                        size))
                 (enumerate 1 (take 10 ms));
      Ok (Results (Z.of_nat (length ms)) total categories top)
  end.

(** [sum] of the values of a dictionary. *)
Definition sum_values (d : list (string * Z)) : Z :=
  fold_right (fun item acc => snd item + acc) 0 d.

(** ** The command [scan] *)

(** [scan]: the minimum size is parsed, the tree is scanned, the global
    caches are added and the list sorted again if asked, the results are
    shown and the list is handed to [clean_matches], in dry-run mode
    unless [execute] is set.  The result is the world afterwards with the
    list of matches and what the cleaner showed, or the exception that
    ended the command.  The panels of the cleaner print sums of sizes of
    these matches; with sizes that are not negative they are at most the
    total [show_results] has printed before. *)
Definition scan_command {fs text float} `{FileSystem fs} `{JsonCodec text}
    `{PyFloat float} (fuel : nat) (w : world fs text) (env : environment)
    (now : string) (confirm : bool)
    (p : path) (execute incl_global : bool) (category : list string)
    (max_depth : option Z) (min_size : string) (yes : bool)
    : world fs text * result (list Match * report) :=
  match min_bytes_of min_size with
  | Raise e => (w, Raise e)
  | Ok min_bytes =>
      let cats := match category with [] => None | _ => Some category end in
      match scan_dir fuel (disk w) p cats max_depth min_bytes with
      | Raise e => (w, Raise e)
      | Ok found =>
          let ms :=
            if incl_global
            then sorted_by_size_desc (found ++ scan_global (disk w) env min_bytes)
            else found in
          match show_results ms with
          | Raise e => (w, Raise e)
          | Ok _ =>
              let '(w', r) :=
                clean_matches w now confirm ms (negb execute)
                  (path_str (fs_resolve (disk w) p)) yes in
              (w', match r with
                   | Ok rep => Ok (ms, rep)
                   | Raise e => Raise e
                   end)
          end
      end
  end.

(** ** The command [stats]

    [stats] works on whatever [load_history] returns, so on any value a
    history file can hold, and can raise [TypeError] besides the
    exceptions of [exn]. *)

Inductive py_exn : Type :=
  | Builtin (e : exn)
  | TypeError.

Inductive outcome (A : Type) : Type :=
  | Returns (a : A)
  | Throws (e : py_exn).

Arguments Returns {A} a.
Arguments Throws {A} e.

(** [bool(v)]. *)
Definition truthy (v : pyval) : bool :=
  match v with
  | PNone => false
  | PBool b => b
  | PInt n => negb (n =? 0)
  | PFloat mantissa _ => negb (mantissa =? 0)
  | PStr s => match s with EmptyString => false | _ => true end
  | PList items => match items with [] => false | _ => true end
  | PDict items => match items with [] => false | _ => true end
  end.

(** [for s in h]: a list gives its items, a dictionary its keys, a string
    its characters; nothing else can be iterated. *)
Definition py_iter (h : pyval) : outcome (list pyval) :=
  match h with
  | PList items => Returns items
  | PDict items => Returns (map (fun item => PStr (fst item)) items)
  | PStr s => Returns (map (fun c => PStr (String c EmptyString)) (list_ascii_of_string s))
  | _ => Throws TypeError
  end.

(** [s.get(key, default)]: only a dictionary has [get]. *)
Definition py_get (s : pyval) (key : string) (default : pyval) : outcome pyval :=
  match s with
  | PDict items =>
      Returns match dict_get key items with Some v => v | None => default end
  | _ => Throws (Builtin AttributeError)
  end.

(** [[s for s in h if not s.get("dry_run", True)]]. *)
Fixpoint cleaned_sessions (items : list pyval) : outcome (list pyval) :=
  match items with
  | [] => Returns []
  | s :: rest =>
      match py_get s "dry_run" (PBool true) with
      | Throws e => Throws e
      | Returns dry =>
          match cleaned_sessions rest with
          | Throws e => Throws e
          | Returns cleaned => Returns (if truthy dry then cleaned else s :: cleaned)
          end
      end
  end.

(** [s.get("size") or s.get("total_size_bytes", 0)]. *)
Definition session_size (s : pyval) : outcome pyval :=
  match py_get s "size" PNone with
  | Throws e => Throws e
  | Returns size =>
      if truthy size then Returns size else py_get s "total_size_bytes" (PInt 0)
  end.

(** The running total of [sum]: an integer as long as integers and
    booleans are added, a float from the first float on.  The value of a
    float total is Python's and is not written out. *)
Inductive running_total : Type :=
  | IntTotal (n : Z)
  | FloatTotal.

(** An integer that rounds to 2^1024 or more cannot be turned into a
    float: adding it to one raises [OverflowError]. *)
Definition too_large_for_float (n : Z) : bool :=
  let a := Z.abs n in
  let shift := Z.max 0 (Z.log2 a + 1 - 53) in
  2 ^ 1024 <=? round_half_even a shift * 2 ^ shift.

(** [total + v]. *)
Definition add_value (total : running_total) (v : pyval) : outcome running_total :=
  match v with
  | PInt k =>
      match total with
      | IntTotal n => Returns (IntTotal (n + k))
      | FloatTotal =>
          if too_large_for_float k then Throws (Builtin OverflowError)
          else Returns FloatTotal
      end
  | PBool b =>
      match total with
      | IntTotal n => Returns (IntTotal (n + (if b then 1 else 0)))
      | FloatTotal => Returns FloatTotal
      end
  | PFloat _ _ =>
      match total with
      | IntTotal n =>
          if too_large_for_float n then Throws (Builtin OverflowError)
          else Returns FloatTotal
      | FloatTotal => Returns FloatTotal
      end
  | _ => Throws TypeError
  end.

(** [sum(... for s in cleaned)], from the running total [total]. *)
Fixpoint sum_sizes (total : running_total) (cleaned : list pyval)
    : outcome running_total :=
  match cleaned with
  | [] => Returns total
  | s :: rest =>
      match session_size s with
      | Throws e => Throws e
      | Returns v =>
          match add_value total v with
          | Throws e => Throws e
          | Returns total' => sum_sizes total' rest
          end
      end
  end.

(** The three lines of the panel; the last is [None] when the total is a
    float, which [fmt_size] then formats with Python's float arithmetic. *)
Inductive stats_panel : Type :=
  | StatsPanel (sessions cleaned : Z) (saved : option string).

Definition stats {text} `{JsonCodec text} (file : option text) : outcome stats_panel :=
  match py_iter (load_history file) with
  | Throws e => Throws e
  | Returns h =>
      match cleaned_sessions h with
      | Throws e => Throws e
      | Returns cleaned =>
          match sum_sizes (IntTotal 0) cleaned with
          | Throws e => Throws e
          | Returns total =>
              let sessions := Z.of_nat (length h) in
              let count := Z.of_nat (length cleaned) in
              match total with
              | FloatTotal => Returns (StatsPanel sessions count None)
              | IntTotal n =>
                  match fmt_size n with
                  | Ok saved => Returns (StatsPanel sessions count (Some saved))
                  | Raise e => Throws (Builtin e)
                  end
              end
          end
      end
  end.

(** The calls of a run that were not dry runs, and the bytes they freed. *)
Definition executed (calls : list session_call) : list session_call :=
  filter (fun c => call_dry_run c = false) calls.

Definition bytes_saved (calls : list session_call) : Z :=
  fold_right (fun c acc => call_size c + acc) 0 (executed calls).

(** Two executed cleans and a dry run between them. *)
Definition three_calls : list session_call :=
  [ mkCall "2024-05-01T10:20:30.123456" "/home/dev" (3 * 1024 * 1024) 2 false;
    mkCall "2024-05-02T09:00:00.000000" "/home/dev" (700 * 1024 * 1024) 5 true;
    mkCall "2024-05-03T18:45:10.500000" "/srv" 0 0 false ].

(* ================================================================== *)
(** * Part II: properties                                              *)
(* ================================================================== *)

(** ** Strings *)

Lemma append_nil_l (s : string) : "" +:+ s = s.
Proof. reflexivity. Qed.

Lemma append_cons (c : ascii) (s t : string) :
  String c s +:+ t = String c (s +:+ t).
Proof. reflexivity. Qed.

Lemma endswith_cons (c : ascii) (s suffix : string) :
  endswith (String c s) suffix =
  if String.eqb (String c s) suffix then true else endswith s suffix.
Proof. reflexivity. Qed.

Lemma endswith_spec (s suffix : string) :
  endswith s suffix = true <-> exists front, s = front +:+ suffix.
Proof.
  split.
  - induction s as [|c s IH].
    + destruct suffix; [|discriminate]. intros _. now exists "".
    + rewrite endswith_cons.
      destruct (String.eqb_spec (String c s) suffix) as [<-|_].
      * intros _. now exists "".
      * intros Hs. destruct (IH Hs) as [front ->]. now exists (String c front).
  - intros [front ->]. induction front as [|c front IH].
    + destruct suffix; [reflexivity|]. rewrite append_nil_l, endswith_cons.
      now rewrite String.eqb_refl.
    + rewrite append_cons, endswith_cons.
      destruct (String.eqb_spec (String c (front +:+ suffix)) suffix); [reflexivity|].
      exact IH.
Qed.

Lemma pattern_matches_spec (pattern name : string) :
  pattern_matches pattern name = true <->
  (exists rest front, pattern = String "*" rest /\ name = front +:+ rest) \/
  (startswith_star pattern = false /\ name = pattern).
Proof.
  unfold pattern_matches.
  destruct (startswith_star pattern) eqn:Hstar.
  - rewrite endswith_spec. split.
    + intros [front ->]. left. exists (tail_from_1 pattern), front. split; [|done].
      destruct pattern as [|c rest]; [done|]. simpl in *.
      destruct (Ascii.eqb_spec c "*") as [->|Hc]; [done|].
      exfalso. revert Hstar Hc. clear.
      destruct c as [[] [] [] [] [] [] [] []]; simpl; congruence.
    + intros [(rest & front & -> & ->)|[? _]]; [|done]. now exists front.
  - rewrite String.eqb_eq. split.
    + intros ->. now right.
    + intros [(rest & front & -> & _)|[_ ->]]; [done|done].
Qed.

Lemma match_patterns_spec (name : string) (patterns : list string) :
  match_patterns name patterns = true <->
  exists pattern, pattern ∈ patterns /\ pattern_matches pattern name = true.
Proof.
  induction patterns as [|p ps IH]; simpl.
  - split; [done|]. intros (p & Hp & _). by apply elem_of_nil in Hp.
  - destruct (pattern_matches p name) eqn:Hp.
    + split; [|done]. intros _. exists p. split; [left|done].
    + rewrite IH. split.
      * intros (q & Hq & Hm). exists q. split; [by right|done].
      * intros (q & Hq & Hm). apply elem_of_cons in Hq as [->|Hq]; [congruence|].
        by exists q.
Qed.

(** ** The catalogue: first registered match *)

Lemma match_types_find (name cat : string) (types : list cache_type) :
  (fun type_name => (cat, type_name)) <$> match_types name types =
  (fun line : string * string * list string => (fst (fst line), snd (fst line))) <$>
    find (line_matches name)
         (map (fun t : cache_type => (cat, fst t, fst (snd t))) types).
Proof.
  induction types as [|[type_name [patterns descr]] types IH]; [done|].
  simpl. unfold line_matches at 1. simpl.
  destruct (match_patterns name patterns); [done|exact IH].
Qed.

Lemma find_app_none {A} (f : A -> bool) (l1 l2 : list A) :
  find f l1 = None -> find f (l1 ++ l2) = find f l2.
Proof.
  induction l1 as [|x l1 IH]; [done|]. simpl. destruct (f x); [done|exact IH].
Qed.

Lemma find_app_some {A} (f : A -> bool) (l1 l2 : list A) (x : A) :
  find f l1 = Some x -> find f (l1 ++ l2) = Some x.
Proof.
  induction l1 as [|y l1 IH]; [done|]. simpl. destruct (f y); [done|exact IH].
Qed.

Lemma match_categories_find (categories : option (list string)) (name : string)
    (table : list category) :
  match_categories categories name table =
  (fun line : string * string * list string => (fst (fst line), snd (fst line))) <$>
    find (line_matches name)
         (flat_map
            (fun c : category =>
               if category_allowed categories (fst c)
               then map (fun t : cache_type => (fst c, fst t, fst (snd t))) (snd c)
               else [])
            table).
Proof.
  induction table as [|[cat types] table IH]; [done|].
  simpl. destruct (category_allowed categories cat); [|exact IH].
  pose proof (match_types_find name cat types) as Ht.
  destruct (match_types name types) as [type_name|]; simpl in Ht.
  - destruct (find _ (map _ types)) as [line|] eqn:Hf; [|done].
    rewrite (find_app_some _ _ _ _ Hf). exact Ht.
  - destruct (find _ (map _ types)) as [line|] eqn:Hf; [done|].
    rewrite (find_app_none _ _ _ Hf). exact IH.
Qed.

Lemma find_first {A} (f : A -> bool) (l : list A) (x : A) :
  find f l = Some x <->
  exists before after,
    l = before ++ x :: after /\ f x = true /\ Forall (fun y => f y = false) before.
Proof.
  split.
  - induction l as [|y l IH]; [done|]. simpl. destruct (f y) eqn:Hy.
    + intros [= ->]. exists [], l. by repeat split.
    + intros Hl. destruct (IH Hl) as (before & after & -> & Hx & Hb).
      exists (y :: before), after. repeat split; [done|]. by constructor.
  - intros (before & after & -> & Hx & Hb).
    induction Hb as [|y before Hy _ IH]; simpl; [by rewrite Hx|by rewrite Hy].
Qed.

Lemma find_none {A} (f : A -> bool) (l : list A) :
  find f l = None <-> Forall (fun y => f y = false) l.
Proof.
  induction l as [|y l IH]; simpl.
  - split; [constructor|done].
  - destruct (f y) eqn:Hy.
    + split; [done|]. intros Hl. inversion Hl; congruence.
    + rewrite IH. split; [by constructor|]. intros Hl. by inversion Hl.
Qed.

(** C7.  Matching an entry name walks the catalogue in registration order
    (the categories the filter excludes left out) and answers the first
    cache type one of whose patterns matches: a pattern beginning with the
    star matches the names that end with the rest of it, any other pattern
    matches the name equal to it.  A name no pattern matches gets no
    answer, and "build", a pattern of python/eggs and of java/gradle, goes
    to python/eggs, registered first. *)
Theorem match_entry_first_registered (categories : option (list string)) (name : string) :
  (forall pattern,
     pattern_matches pattern name = true <->
     (exists rest front, pattern = String "*" rest /\ name = front +:+ rest) \/
     (startswith_star pattern = false /\ name = pattern)) /\
  (forall cat type_name,
     match_entry categories name = Some (cat, type_name) <->
     exists before patterns after,
       registered categories = before ++ (cat, type_name, patterns) :: after /\
       (exists pattern, pattern ∈ patterns /\ pattern_matches pattern name = true) /\
       Forall (fun line => forall pattern,
                 pattern ∈ snd line -> pattern_matches pattern name = false) before) /\
  (match_entry categories name = None <->
     Forall (fun line => forall pattern,
               pattern ∈ snd line -> pattern_matches pattern name = false)
            (registered categories)) /\
  match_entry None "build" = Some ("python", "eggs") /\
  match_entry None "x.egg-info" = Some ("python", "eggs").
Proof.
  assert (Hno : forall line : string * string * list string,
             line_matches name line = false <->
             forall pattern, pattern ∈ snd line -> pattern_matches pattern name = false).
  { intros line. unfold line_matches. split.
    - intros Hl p Hp. destruct (pattern_matches p name) eqn:Hm; [|done].
      assert (match_patterns name (snd line) = true) by (apply match_patterns_spec; eauto).
      congruence.
    - intros Hl. destruct (match_patterns name (snd line)) eqn:Hm; [|done].
      apply match_patterns_spec in Hm as (p & Hp & Hm). rewrite (Hl p Hp) in Hm. done. }
  assert (Hall : forall lines : list (string * string * list string),
             Forall (fun y => line_matches name y = false) lines <->
             Forall (fun line => forall pattern,
                       pattern ∈ snd line -> pattern_matches pattern name = false) lines).
  { intros lines. rewrite !Forall_forall. split; intros Hl y Hy; apply Hno, Hl, Hy. }
  split; [intros pattern; apply pattern_matches_spec|].
  unfold match_entry, registered. rewrite match_categories_find.
  split; [|split; [|split; reflexivity]].
  - intros cat type_name. split.
    + destruct (find _ _) as [[[c t] ps]|] eqn:Hf; [|done].
      simpl. intros [= -> ->].
      apply find_first in Hf as (before & after & Heq & Hm & Hb).
      exists before, ps, after. split; [done|]. split.
      * by apply match_patterns_spec.
      * by apply Hall.
    + intros (before & ps & after & Heq & Hm & Hb).
      assert (Hf : find (line_matches name)
                (flat_map
                   (fun c : category =>
                      if category_allowed categories (fst c)
                      then map (fun t : cache_type => (fst c, fst t, fst (snd t))) (snd c)
                      else []) CACHE_TYPES) = Some (cat, type_name, ps)).
      { apply find_first. exists before, after. split; [done|]. split.
        - by apply match_patterns_spec.
        - by apply Hall. }
      by rewrite Hf.
  - rewrite <- Hall, <- find_none. destruct (find _ _); simpl; split; done.
Qed.

(** ** The scanner *)

Lemma name_child (dir : path) (n : string) : name (dir ++ [n]) = n.
Proof. unfold name. apply last_last. Qed.

Lemma insert_by_size_perm (m : Match) (l : list Match) :
  insert_by_size m l ≡ₚ m :: l.
Proof.
  induction l as [|m' l IH]; simpl; [done|].
  destruct (m_size m' <=? m_size m); [done|].
  rewrite IH. apply perm_swap.
Qed.

Lemma sorted_by_size_desc_perm (l : list Match) : sorted_by_size_desc l ≡ₚ l.
Proof.
  induction l as [|m l IH]; simpl; [done|].
  rewrite insert_by_size_perm. by constructor.
Qed.

Section ScanProofs.
Context {fs : Type} `{FileSystem fs}.
Variable σ : fs.
Variable categories : option (list string).
Variable max_depth : option Z.
Variable min_size : Z.
Variable root : path.

(** The one induction over the scanner.  [Q] holds of the directories the
    scanner enters and [P] of its state: if [Q] passes from a directory to
    the entries no pattern matches, and [P] survives the recording of a
    match found in a [Q]-directory, then [P] holds when the scan returns. *)
Section Rule.
Variable Q : path -> Prop.
Variable P : scan_state -> Prop.
Hypothesis descend : forall dir n,
  Q dir -> match_entry categories n = None -> Q (dir ++ [n]).
Hypothesis record : forall dir n st cat type_name size,
  Q dir -> P st ->
  dir ++ [n] ∉ seen st ->
  match_entry categories n = Some (cat, type_name) ->
  get_size σ (dir ++ [n]) = Ok size ->
  min_size <= size ->
  P (record_match st (mkMatch (dir ++ [n]) cat type_name size)).

Lemma scan_entry_rule (rec : path -> scan_state -> result scan_state)
    (dir : path) (n : string) (st st' : scan_state) :
  (forall st1 st2, rec (dir ++ [n]) st1 = Ok st2 -> Q (dir ++ [n]) -> P st1 -> P st2) ->
  Q dir -> P st ->
  scan_entry σ categories min_size rec (dir ++ [n]) st = Ok st' ->
  P st'.
Proof.
  intros Hrec Hdir Hst. unfold scan_entry. rewrite name_child.
  case_bool_decide as Hseen; [by intros [= <-]|].
  destruct (match_entry categories n) as [[cat type_name]|] eqn:Hm.
  - destruct (get_size σ (dir ++ [n])) as [size|e] eqn:Hsize; [|done].
    simpl. destruct (min_size <=? size) eqn:Hle; intros [= <-]; [|done].
    apply (record dir n st cat type_name size); auto. lia.
  - destruct (fs_is_dir σ (dir ++ [n])); [|by intros [= <-]].
    intros Hscan. eapply Hrec; eauto.
Qed.

Lemma scan_entries_rule (rec : path -> scan_state -> result scan_state)
    (dir : path) (names : list string) :
  (forall n st1 st2, rec (dir ++ [n]) st1 = Ok st2 -> Q (dir ++ [n]) -> P st1 -> P st2) ->
  Q dir ->
  forall st st',
    P st ->
    scan_entries σ categories min_size rec (map (fun n => dir ++ [n]) names) st = Ok st' ->
    P st'.
Proof.
  intros Hrec Hdir. induction names as [|n names IH]; intros st st' Hst; simpl.
  - by intros [= <-].
  - destruct (scan_entry σ categories min_size rec (dir ++ [n]) st) as [st1|e] eqn:Hentry;
      [|done].
    simpl. apply IH. eapply scan_entry_rule; eauto.
Qed.

Lemma scan_rule (fuel : nat) :
  forall p st st',
    scan σ categories max_depth min_size root fuel p st = Ok st' ->
    Q p -> P st -> P st'.
Proof.
  induction fuel as [|fuel IH]; intros p st st'; [done|]. simpl.
  destruct (bool_decide (p ∈ seen st) || negb (fs_exists σ p)); [by intros [= <-]|].
  destruct (bool_decide (name p ∈ skip_dirs)); [by intros [= <-]|].
  destruct (too_deep max_depth root p); [by intros [= <-]|].
  destruct (fs_iterdir σ p) as [names|e] eqn:Hls.
  - intros Hscan Hp Hst. eapply scan_entries_rule; eauto.
  - destruct e; try done. by intros [= <-].
Qed.

End Rule.

(** *** The facts a scan keeps about what it has recorded *)

Lemma entered_root : entered categories root root.
Proof. exists []. split; [by rewrite app_nil_r|constructor]. Qed.

Lemma entered_child (dir : path) (n : string) :
  entered categories root dir -> match_entry categories n = None ->
  entered categories root (dir ++ [n]).
Proof.
  intros (comps & -> & Hc) Hn. exists (comps ++ [n]). split.
  - by rewrite app_assoc.
  - apply Forall_app. split; [done|]. by constructor.
Qed.

Lemma sound_state_record (dir : path) (n : string) (st : scan_state)
    (cat type_name : string) (size : Z) :
  entered categories root dir -> sound_state σ categories min_size root st ->
  dir ++ [n] ∉ seen st ->
  match_entry categories n = Some (cat, type_name) ->
  get_size σ (dir ++ [n]) = Ok size ->
  min_size <= size ->
  sound_state σ categories min_size root
    (record_match st (mkMatch (dir ++ [n]) cat type_name size)).
Proof.
  intros Hdir (Hms & Hnd & Hseen) Hnew Hm Hsize Hle.
  unfold sound_state, record_match. simpl. split; [|split].
  - apply Forall_app. split; [done|]. constructor; [|constructor].
    split; [|done]. by exists dir, n.
  - rewrite map_app. simpl. apply NoDup_app. split; [done|]. split.
    + intros p Hp Hp'. apply list_elem_of_singleton in Hp'. subst p. auto.
    + apply NoDup_singleton.
  - intros p. rewrite map_app, elem_of_app. simpl.
    rewrite list_elem_of_singleton. intros [Hp| ->].
    + apply elem_of_union_r. auto.
    + by apply elem_of_union_l, elem_of_singleton.
Qed.

Lemma scan_sound (fuel : nat) (p : path) (st st' : scan_state) :
  scan σ categories max_depth min_size root fuel p st = Ok st' ->
  entered categories root p ->
  sound_state σ categories min_size root st ->
  sound_state σ categories min_size root st'.
Proof.
  apply (scan_rule (entered categories root) (sound_state σ categories min_size root));
    [apply entered_child|].
  intros. by apply sound_state_record.
Qed.

End ScanProofs.

Lemma scan_dir_sound {fs} `{FileSystem fs} (fuel : nat) (σ : fs) (root : path)
    (categories : option (list string)) (max_depth : option Z) (min_size : Z)
    (ms : list Match) :
  scan_dir fuel σ root categories max_depth min_size = Ok ms ->
  Forall (sound_match σ categories min_size (fs_resolve σ root)) ms /\
  NoDup (map m_path ms).
Proof.
  unfold scan_dir.
  destruct (scan _ _ _ _ _ _ _ _) as [st|e] eqn:Hscan; [|done].
  simpl. intros [= <-].
  apply scan_sound in Hscan as (Hms & Hnd & _).
  - split.
    + by rewrite sorted_by_size_desc_perm.
    + assert (map m_path (sorted_by_size_desc (matches st)) ≡ₚ map m_path (matches st))
        as Hperm by apply Permutation_map, sorted_by_size_desc_perm.
      by rewrite Hperm.
  - apply entered_root.
  - split; [constructor|]. split; [constructor|]. simpl. intros p Hp.
    by apply elem_of_nil in Hp.
Qed.

(** *** Every scan that is given enough fuel returns *)

Lemma get_size_returns {fs} `{FileSystem fs} (σ : fs) (depth : nat) (p : path) :
  well_behaved σ depth -> exists size, get_size σ p = Ok size.
Proof.
  intros Hwb. unfold get_size.
  destruct (negb (fs_exists σ p)); [by eexists|].
  destruct (fs_is_file σ p) eqn:Hfile; [|by eexists].
  destruct (fs_stat_size σ p) as [size|] eqn:Hstat; [by eexists|].
  by apply (wb_stat σ depth Hwb) in Hfile.
Qed.

Section ScanReturns.
Context {fs : Type} `{FileSystem fs}.
Variable σ : fs.
Variable categories : option (list string).
Variable max_depth : option Z.
Variable min_size : Z.
Variable root : path.
Variable depth : nat.
Hypothesis Hwb : well_behaved σ depth.

Lemma scan_entries_returns (rec : path -> scan_state -> result scan_state)
    (dir : path) (names : list string) :
  (forall n st, fs_is_dir σ (dir ++ [n]) = true -> exists st', rec (dir ++ [n]) st = Ok st') ->
  forall st, exists st',
    scan_entries σ categories min_size rec (map (fun n => dir ++ [n]) names) st = Ok st'.
Proof.
  intros Hrec. induction names as [|n names IH]; intros st; simpl; [by eexists|].
  assert (exists st1, scan_entry σ categories min_size rec (dir ++ [n]) st = Ok st1)
    as [st1 ->].
  { unfold scan_entry. case_bool_decide; [by eexists|].
    destruct (match_entry categories (name (dir ++ [n]))) as [[cat type_name]|].
    - destruct (get_size_returns σ depth (dir ++ [n]) Hwb) as [size ->]. simpl.
      destruct (min_size <=? size); by eexists.
    - destruct (fs_is_dir σ (dir ++ [n])) eqn:Hdir; [by apply Hrec|by eexists]. }
  simpl. apply IH.
Qed.

Lemma scan_S (fuel : nat) (p : path) (st : scan_state) :
  scan σ categories max_depth min_size root (S fuel) p st =
  if bool_decide (p ∈ seen st) || negb (fs_exists σ p) then Ok st
  else if bool_decide (name p ∈ skip_dirs) then Ok st
  else if too_deep max_depth root p then Ok st
  else match fs_iterdir σ p with
       | Ok names =>
           scan_entries σ categories min_size
             (scan σ categories max_depth min_size root fuel)
             (map (fun n => p ++ [n]) names) st
       | Raise PermissionError => Ok st
       | Raise e => Raise e
       end.
Proof. reflexivity. Qed.

Lemma scan_returns (fuel : nat) :
  forall (p : path) (st : scan_state),
    (1 <= fuel)%nat -> (depth + 2 <= fuel + length p)%nat ->
    fs_is_dir σ p = true ->
    exists st', scan σ categories max_depth min_size root fuel p st = Ok st'.
Proof.
  induction fuel as [|fuel IH]; intros p st Hfuel Hdepth Hdir; [lia|].
  rewrite scan_S.
  destruct (bool_decide (p ∈ seen st) || negb (fs_exists σ p)) eqn:Hskip; [eexists; reflexivity|].
  apply orb_false_elim in Hskip as [_ Hex]. apply negb_false_iff in Hex.
  destruct (bool_decide (name p ∈ skip_dirs)); [eexists; reflexivity|].
  destruct (too_deep max_depth root p); [eexists; reflexivity|].
  assert (length p <= depth)%nat as Hlen.
  { destruct (le_lt_dec (length p) depth) as [|Hlt]; [done|].
    apply (wb_depth σ depth Hwb) in Hlt. congruence. }
  destruct (wb_iterdir σ depth Hwb p Hdir) as [[names ->]| ->]; [|eexists; reflexivity].
  apply scan_entries_returns. intros n st1 Hn. apply IH; [lia| |done].
  rewrite length_app. simpl. lia.
Qed.

End ScanReturns.


(** *** The concrete trees are well behaved *)

Lemma posix_iterdir (root : Posix.node) (p : path) :
  fs_is_dir root p = true ->
  (exists names, fs_iterdir root p = Ok names) \/ fs_iterdir root p = Raise PermissionError.
Proof.
  simpl. unfold Posix.is_dir, Posix.iterdir.
  destruct (Posix.lookup root p) as [[canon [size|r w es|t]]|]; try done.
  intros _. destruct r; [left; by eexists|by right].
Qed.

Lemma posix_stat (root : Posix.node) (p : path) :
  fs_is_file root p = true -> fs_stat_size root p <> None.
Proof.
  simpl. unfold Posix.is_file, Posix.stat_size.
  by destruct (Posix.lookup root p) as [[canon [size|r w es|t]]|].
Qed.

Lemma project_tree_resolve (fuel : nat) (c1 c2 c3 c4 c5 : string) (rest : path) :
  Posix.resolve_at fuel Posix.project_tree (c1 :: c2 :: c3 :: c4 :: c5 :: rest) = None.
Proof.
  unfold Posix.project_tree, Posix.dir.
  destruct fuel; cbn [Posix.resolve_at Posix.child];
    repeat (match goal with
            | |- context [String.eqb ?a ?b] =>
                destruct (String.eqb a b); cbn [Posix.resolve_at Posix.child]
            end; try reflexivity).
Qed.

Lemma project_tree_depth (p : path) :
  (4 < length p)%nat -> fs_exists Posix.project_tree p = false.
Proof.
  intros Hlen.
  destruct p as [|c1 [|c2 [|c3 [|c4 [|c5 rest]]]]]; simpl in Hlen; try lia.
  simpl. unfold Posix.exists_, Posix.lookup. by rewrite project_tree_resolve.
Qed.

Lemma project_tree_well_behaved : well_behaved Posix.project_tree 4.
Proof.
  split; [apply project_tree_depth|apply posix_iterdir|apply posix_stat].
Qed.


(** *** C4: distinct paths *)




(** *** C5: matched directories are not entered *)

Lemma below_inv (d p : path) :
  below d p -> exists k x, p = d ++ k ++ [x].
Proof.
  intros [[k ->] Hne]. destruct k as [|y k] using rev_ind.
  - by rewrite app_nil_r in Hne.
  - by exists k, y.
Qed.



(** *** C6: the size threshold *)

Lemma scan_global_entry_reaches {fs} `{FileSystem fs} (σ : fs) (min_size : Z)
    (found : list Match) (cache : string * result path) :
  Forall (reaches_threshold σ min_size) found ->
  Forall (reaches_threshold σ min_size) (scan_global_entry σ min_size found cache).
Proof.
  intros Hfound. destruct cache as [cache_name [p|e]]; simpl; [|done].
  destruct (fs_exists σ p); [|done].
  destruct (get_size σ p) as [size|e] eqn:Hsize; simpl; [|done].
  destruct (min_size <=? size) eqn:Hle; simpl; [|done].
  apply Forall_app. split; [done|]. constructor; [|constructor].
  split; simpl; [done|lia].
Qed.

Lemma scan_global_reaches {fs} `{FileSystem fs} (σ : fs) (env : environment)
    (min_size : Z) :
  Forall (reaches_threshold σ min_size) (scan_global σ env min_size).
Proof.
  unfold scan_global. rewrite sorted_by_size_desc_perm.
  assert (forall caches found,
    Forall (reaches_threshold σ min_size) found ->
    Forall (reaches_threshold σ min_size)
      (fold_left (scan_global_entry σ min_size) caches found)) as Hfold.
  { induction caches as [|cache caches IH]; intros found Hfound; simpl; [done|].
    by apply IH, scan_global_entry_reaches. }
  apply Hfold. constructor.
Qed.

(** C6.  Every match a tree scan returns, and every match the scan of
    the global caches returns, has the size [get_size] gives for its path,
    and that size is at least [min_size]; so an entry whose size is below
    the threshold is the path of no match.  The default threshold is
    1 MiB. *)
Theorem matches_reach_min_size {fs} `{FileSystem fs} (fuel : nat) (σ : fs)
    (root : path) (categories : option (list string)) (max_depth : option Z)
    (env : environment) (min_size : Z) (ms : list Match) :
  scan_dir fuel σ root categories max_depth min_size = Ok ms ->
  Forall (fun m => min_size <= m_size m) (ms ++ scan_global σ env min_size) /\
  (forall entry size,
     get_size σ entry = Ok size -> size < min_size ->
     entry ∉ map m_path (ms ++ scan_global σ env min_size)) /\
  DEFAULT_MIN_SIZE = 1048576.
Proof.
  intros Hscan. apply scan_dir_sound in Hscan as [Hsound _].
  assert (Forall (reaches_threshold σ min_size) (ms ++ scan_global σ env min_size))
    as Hall.
  { apply Forall_app. split; [|apply scan_global_reaches].
    eapply Forall_impl; [exact Hsound|]. intros m (_ & Hsize & Hle). by split. }
  split; [|split; [|reflexivity]].
  - eapply Forall_impl; [exact Hall|]. by intros m [_ Hle].
  - intros entry size Hsize Hlt Hin.
    apply list_elem_of_In, in_map_iff in Hin as (m & <- & Hm).
    rewrite Forall_forall in Hall.
    destruct (Hall m) as [Hsize' Hle]; [by apply list_elem_of_In|].
    rewrite Hsize in Hsize'. injection Hsize' as ->. lia.
Qed.

Lemma matches_reach_min_size_witness :
  scan_dir RECURSION_LIMIT Posix.project_tree ["project"] None None (2 * Posix.MiB) =
    Ok [ mkMatch ["project"; "node_modules"] "node" "node_modules" (40 * Posix.MiB);
         mkMatch ["project"; "src"; "__pycache__"] "python" "pycache" (2 * Posix.MiB) ] /\
  scan_dir RECURSION_LIMIT Posix.project_tree ["project"] None None (50 * Posix.MiB) = Ok [] /\
  Forall (fun m => 2 * Posix.MiB <= m_size m)
    ([ mkMatch ["project"; "node_modules"] "node" "node_modules" (40 * Posix.MiB);
       mkMatch ["project"; "src"; "__pycache__"] "python" "pycache" (2 * Posix.MiB) ] ++
     scan_global Posix.project_tree (mkEnv (Ok ["home"; "dev"]) false) (2 * Posix.MiB)).
Proof.
  assert (scan_dir RECURSION_LIMIT Posix.project_tree ["project"] None None (2 * Posix.MiB) =
    Ok [ mkMatch ["project"; "node_modules"] "node" "node_modules" (40 * Posix.MiB);
         mkMatch ["project"; "src"; "__pycache__"] "python" "pycache" (2 * Posix.MiB) ])
    as Hscan by (vm_compute; reflexivity).
  split; [exact Hscan|]. split; [vm_compute; reflexivity|].
  exact (proj1 (matches_reach_min_size _ _ _ _ _ (mkEnv (Ok ["home"; "dev"]) false) _ _ Hscan)).
Defined.

(** *** Order and labels of the returned matches *)

Lemma insert_by_size_descending (m : Match) (l : list Match) :
  size_descending l -> size_descending (insert_by_size m l).
Proof.
  unfold size_descending. induction 1 as [|m' rest Hrest IH Hall]; simpl.
  - repeat constructor.
  - destruct (m_size m' <=? m_size m) eqn:Hle.
    + constructor; [by constructor|]. constructor; [lia|].
      eapply Forall_impl; [exact Hall|]. simpl. intros b Hb. lia.
    + constructor; [exact IH|]. rewrite insert_by_size_perm.
      constructor; [lia|exact Hall].
Qed.

Lemma sorted_by_size_desc_descending (l : list Match) :
  size_descending (sorted_by_size_desc l).
Proof.
  induction l as [|m l IH]; simpl; [constructor|].
  by apply insert_by_size_descending.
Qed.

(** The list a scan returns is in descending order of size, and every
    match in it carries the category and the type the catalogue assigns
    to the name of its path. *)
Theorem scan_dir_sorted_and_labelled {fs} `{FileSystem fs} (fuel : nat) (σ : fs)
    (root : path) (categories : option (list string)) (max_depth : option Z)
    (min_size : Z) (ms : list Match) :
  scan_dir fuel σ root categories max_depth min_size = Ok ms ->
  size_descending ms /\
  Forall (fun m => match_entry categories (name (m_path m))
                     = Some (m_category m, m_cache_type m)) ms.
Proof.
  intros Hscan. split.
  - unfold scan_dir in Hscan.
    destruct (scan _ _ _ _ _ _ _ _) as [st|e]; [|done].
    simpl in Hscan. injection Hscan as <-. apply sorted_by_size_desc_descending.
  - apply scan_dir_sound in Hscan as [Hsound _].
    eapply Forall_impl; [exact Hsound|].
    intros m [(dir & n & Hpath & _ & Hmatch) _]. by rewrite Hpath, name_child.
Qed.

Lemma scan_dir_sorted_and_labelled_witness :
  scan_dir RECURSION_LIMIT Posix.locked_tree ["w"] None None DEFAULT_MIN_SIZE
    = Ok locked_matches /\
  size_descending locked_matches.
Proof.
  assert (scan_dir RECURSION_LIMIT Posix.locked_tree ["w"] None None DEFAULT_MIN_SIZE
            = Ok locked_matches) as Hscan by (vm_compute; reflexivity).
  split; [exact Hscan|].
  exact (proj1 (scan_dir_sorted_and_labelled _ _ _ _ _ _ _ Hscan)).
Defined.

(** ** The history store *)

Lemma last_100_length {A} (l : list A) :
  (100 <= length l)%nat -> length (last_100 l) = 100%nat.
Proof. intros Hl. unfold last_100. rewrite length_drop. lia. Qed.

Lemma last_100_short {A} (l : list A) :
  (length l <= 100)%nat -> last_100 l = l.
Proof.
  intros Hl. unfold last_100.
  replace (length l - 100)%nat with 0%nat by lia. reflexivity.
Qed.

(** Truncating before more records arrive changes nothing in the end. *)
Lemma last_100_app {A} (l k : list A) :
  last_100 (last_100 l ++ k) = last_100 (l ++ k).
Proof.
  destruct (le_lt_dec (length l) 100) as [Hl|Hl]; [by rewrite (last_100_short l)|].
  unfold last_100 at 1 3. rewrite !length_app.
  rewrite (last_100_length l) by lia. unfold last_100.
  destruct (le_lt_dec (length k) 100) as [Hk|Hk].
  - rewrite !drop_app_le by (rewrite ?length_drop; lia).
    rewrite drop_drop. do 2 f_equal. lia.
  - rewrite !drop_app_ge by (rewrite ?length_drop; lia).
    rewrite length_drop. f_equal. lia.
Qed.

Lemma last_100_app_long {A} (l k : list A) :
  (100 <= length k)%nat -> last_100 (l ++ k) = drop (length k - 100) k.
Proof.
  intros Hk. unfold last_100. rewrite length_app.
  rewrite drop_app_ge by lia. f_equal. lia.
Qed.

Section HistoryProofs.
Context {text : Type} `{JsonCodec text}.

Lemma load_history_save (sessions : list pyval) :
  round_trip -> load_history (save_history sessions) = PList (last_100 sessions).
Proof. intros Hrt. unfold load_history, save_history. by rewrite Hrt. Qed.

Lemma add_session_list (file : option text) (h : list pyval)
    (now scan_path : string) (size items : Z) (dry_run : bool) :
  load_history file = PList h ->
  add_session file now scan_path size items dry_run =
    Ok (save_history (h ++ [session_record now scan_path size items dry_run])).
Proof. intros Hload. unfold add_session. by rewrite Hload. Qed.

(** After a run of calls the store holds the last 100 of what it held
    before followed by the records of the calls. *)
Lemma add_sessions_load (calls : list session_call) :
  round_trip ->
  forall (file : option text) (h0 : list pyval),
    load_history file = PList h0 ->
    exists file',
      add_sessions file calls = Ok file' /\
      load_history file' =
        PList (match calls with
               | [] => h0
               | _ => last_100 (h0 ++ map record_of calls)
               end).
Proof.
  intros Hrt. induction calls as [|c rest IH]; intros file h0 Hload.
  - by exists file.
  - simpl. rewrite (add_session_list file h0) by done. simpl.
    destruct (IH (save_history (h0 ++ [record_of c]))
                 (last_100 (h0 ++ [record_of c]))) as (file' & Hrun & Hload').
    { by apply load_history_save. }
    exists file'. split; [exact Hrun|]. rewrite Hload'. f_equal.
    destruct rest as [|c' rest]; [done|].
    rewrite last_100_app. by rewrite <- app_assoc.
Qed.


(** C8.  Start from a store whose content loads as a list (no file, a text
    that does not parse, a raw list, a wrapped list) and append at least
    100 records: every call succeeds, and loading then returns exactly the
    100 records appended last, in the order they were appended. *)
Theorem history_keeps_last_100 (file : option text) (h0 : list pyval)
    (calls : list session_call) :
  round_trip ->
  load_history file = PList h0 ->
  (100 <= length calls)%nat ->
  exists file',
    add_sessions file calls = Ok file' /\
    load_history file' = PList (drop (length calls - 100) (map record_of calls)) /\
    length (drop (length calls - 100) (map record_of calls)) = 100%nat.
Proof.
  intros Hrt Hload Hlen.
  destruct (add_sessions_load calls Hrt file h0 Hload) as (file' & Hrun & Hload').
  exists file'. split; [done|]. split.
  - rewrite Hload'. destruct calls as [|c rest]; [simpl in Hlen; lia|].
    rewrite last_100_app_long by (rewrite length_map; done).
    by rewrite length_map.
  - rewrite length_drop, length_map. lia.
Qed.

End HistoryProofs.

Lemma history_keeps_last_100_witness :
  exists file' : option (option pyval),
    add_sessions None hundred_and_one_calls = Ok file' /\
    load_history file' =
      PList (drop (length hundred_and_one_calls - 100)
                  (map record_of hundred_and_one_calls)) /\
    length (drop (length hundred_and_one_calls - 100)
                 (map record_of hundred_and_one_calls)) = 100%nat.
Proof.
  apply (history_keeps_last_100 None []).
  - intros v. reflexivity.
  - reflexivity.
  - vm_compute. lia.
Defined.

(** ** The cleaner *)

Lemma total_size_from (ms : list Match) (acc : Z) :
  fold_left (fun acc m => acc + m_size m) ms acc = acc + total_size ms.
Proof.
  unfold total_size. revert acc.
  induction ms as [|m ms IH]; intros acc; simpl; [lia|].
  rewrite (IH (acc + m_size m)), (IH (0 + m_size m)). lia.
Qed.

Lemma total_size_cons (m : Match) (ms : list Match) :
  total_size (m :: ms) = m_size m + total_size ms.
Proof. unfold total_size at 1. simpl. by rewrite total_size_from. Qed.

Section CleanerProofs.
Context {fs text : Type} `{FileSystem fs} `{JsonCodec text}.

Lemma disk_after_app (σ : fs) (l1 l2 : list Match) :
  disk_after σ (l1 ++ l2) = disk_after (disk_after σ l1) l2.
Proof. revert σ. induction l1 as [|m l1 IH]; intros σ; simpl; [done|apply IH]. Qed.

Lemma deleted_matches_app (σ : fs) (l1 l2 : list Match) :
  deleted_matches σ (l1 ++ l2) =
  deleted_matches σ l1 ++ deleted_matches (disk_after σ l1) l2.
Proof.
  revert σ. induction l1 as [|m l1 IH]; intros σ; simpl; [done|].
  destruct (delete_match σ m) as [σ' [[]|e]]; simpl; by rewrite IH.
Qed.

(** The loop ends with the disk after every attempt and with the counters
    raised by the matches that were deleted. *)
Lemma delete_all_spec (ms : list Match) :
  forall (σ : fs) (freed deleted : Z),
    delete_all σ ms freed deleted =
    (disk_after σ ms,
     (freed + total_size (deleted_matches σ ms),
      deleted + Z.of_nat (length (deleted_matches σ ms)))).
Proof.
  induction ms as [|m ms IH]; intros σ freed deleted; simpl.
  - unfold total_size. simpl. do 2 f_equal; lia.
  - destruct (delete_match σ m) as [σ' [[]|e]]; simpl; rewrite IH.
    + rewrite total_size_cons. do 2 f_equal; simpl length; lia.
    + done.
Qed.

Lemma clean_matches_execute (w : world fs text) (now : string) (confirm : bool)
    (ms : list Match) (scan_path : string) (skip_confirm : bool) :
  ms <> [] ->
  negb skip_confirm && negb confirm = false ->
  clean_matches w now confirm ms false scan_path skip_confirm =
    let '(σ, (freed, deleted)) := delete_all (disk w) ms 0 0 in
    match add_session (history w) now scan_path freed deleted false with
    | Ok file => (mkWorld σ file, Ok (Done deleted freed))
    | Raise e => (mkWorld σ (history w), Raise e)
    end.
Proof.
  intros Hms Hask. destruct ms as [|m ms]; [done|].
  unfold clean_matches. by rewrite Hask.
Qed.


(** C2.  In execute mode, when confirmation is asked and declined,
    [clean_matches] returns the world it was given, disk and history, and
    shows that it aborted. *)
Theorem declined_confirmation_changes_nothing (w : world fs text) (now : string)
    (ms : list Match) (scan_path : string) :
  fst (clean_matches w now false ms false scan_path false) = w /\
  (ms <> [] ->
   snd (clean_matches w now false ms false scan_path false) = Ok Aborted).
Proof. destruct ms as [|m ms]; by split. Qed.


End CleanerProofs.


(** The dry run of the scenario: nothing leaves the disk, and the history
    gains one record for 42 MiB in 2 items. *)
Example dry_run_of_project :
  clean_matches project_world "2024-05-01T10:20:30.123456" false
    project_matches true "/project" false =
  (mkWorld Posix.project_tree
     (Some (Some (PList
        [ old_record;
          PDict [ ("date", PStr "2024-05-01T10:20");
                  ("path", PStr "/project");
                  ("size", PInt 44040192);
                  ("items", PInt 2);
                  ("dry_run", PBool true) ] ]))),
   Ok (Preview 44040192)).
Proof. vm_compute. reflexivity. Qed.


(** The scenario of the specification: of three matched directories the
    read-only one stays, the other two go, and the session records 2 items
    and the 4 MiB of the two. *)
Example clean_of_locked_tree :
  clean_matches locked_world "2024-05-01T10:20:30.123456" false
    locked_matches false "/w" true =
  (mkWorld
     (Posix.dir [ ("w", Posix.dir [ ("dist", Posix.Dir true false
                                                [ ("app.bin", Posix.File (2 * Posix.MiB)) ]) ]) ])
     (Some (Some (PList
        [ PDict [ ("date", PStr "2024-05-01T10:20");
                  ("path", PStr "/w");
                  ("size", PInt 4194304);
                  ("items", PInt 2);
                  ("dry_run", PBool false) ] ]))),
   Ok (Done 2 4194304)).
Proof. vm_compute. reflexivity. Qed.

(** ** The minimum size *)

Lemma upper_ascii_idemp (c : ascii) : upper_ascii (upper_ascii c) = upper_ascii c.
Proof. destruct c as [[] [] [] [] [] [] [] []]; reflexivity. Qed.

Lemma upper_idemp (s : string) : upper (upper s) = upper s.
Proof.
  induction s as [|c s IH]; [reflexivity|].
  simpl. by rewrite upper_ascii_idemp, IH.
Qed.

Lemma length_append (a b : string) :
  String.length (a +:+ b) = (String.length a + String.length b)%nat.
Proof.
  induction a as [|c a IH]; [reflexivity|].
  rewrite append_cons. simpl. by rewrite IH.
Qed.

Lemma append_inj_tail (a b s t : string) :
  a +:+ s = b +:+ t -> String.length s = String.length t -> s = t.
Proof.
  revert b. induction a as [|c a IH]; intros b Heq Hlen.
  - rewrite append_nil_l in Heq. destruct b as [|d b]; [done|].
    apply (f_equal String.length) in Heq. rewrite length_append in Heq.
    simpl in Heq. lia.
  - destruct b as [|d b].
    + rewrite append_nil_l in Heq.
      apply (f_equal String.length) in Heq. rewrite length_append in Heq.
      simpl in Heq. lia.
    + rewrite !append_cons in Heq. injection Heq as _ Heq. by apply (IH b).
Qed.

Lemma substring_prefix (a b : string) :
  substring 0 (String.length a) (a +:+ b) = a.
Proof.
  induction a as [|c a IH].
  - simpl. by destruct b.
  - rewrite append_cons. simpl. by rewrite IH.
Qed.

Lemma drop_last_2_append (a u : string) :
  String.length u = 2%nat -> drop_last_2 (a +:+ u) = a.
Proof.
  intros Hu. unfold drop_last_2. rewrite length_append, Hu.
  replace (String.length a + 2 - 2)%nat with (String.length a) by lia.
  apply substring_prefix.
Qed.

Lemma endswith_append (a u : string) : endswith (a +:+ u) u = true.
Proof. apply endswith_spec. by exists a. Qed.

Lemma endswith_other_unit (a u v : string) :
  String.length u = String.length v -> u <> v -> endswith (a +:+ u) v = false.
Proof.
  intros Hlen Hne. destruct (endswith (a +:+ u) v) eqn:Hends; [|done].
  apply endswith_spec in Hends as [front Heq].
  by apply append_inj_tail in Heq.
Qed.

(** C10.  When the upper-case form of the minimum size ends in KB, MB or
    GB, the threshold is [int(float(NUMBER) * factor)], where NUMBER is
    what stands before the unit in the upper-case form and the factor is
    1024, 1024^2 or 1024^3; so the letter case of the input does not
    matter.  Every other string gives the default 1 MiB with nothing
    raised, as "500" and "1TB" do. *)
Theorem min_bytes_of_units {float} `{PyFloat float} :
  (forall min_size number unit factor,
     (unit, factor) ∈ UNITS ->
     upper min_size = number +:+ unit ->
     min_bytes_of min_size =
       (x ← float_of_str number; int_of_float (float_mul x factor))) /\
  (forall min_size,
     (forall number unit factor,
        (unit, factor) ∈ UNITS -> upper min_size <> number +:+ unit) ->
     min_bytes_of min_size = Ok (1024 * 1024)) /\
  (forall min_size, min_bytes_of (upper min_size) = min_bytes_of min_size) /\
  min_bytes_of "500" = Ok 1048576 /\
  min_bytes_of "1TB" = Ok 1048576.
Proof.
  split; [|split; [|split; [|by split]]].
  - intros min_size number unit factor Hunit Hupper. unfold min_bytes_of.
    rewrite Hupper. unfold UNITS in Hunit.
    repeat (apply elem_of_cons in Hunit as [[= -> ->]|Hunit]);
      [| | |by apply elem_of_nil in Hunit].
    + rewrite (endswith_other_unit _ "KB" "GB"), (endswith_other_unit _ "KB" "MB") by done.
      by rewrite endswith_append, drop_last_2_append.
    + rewrite (endswith_other_unit _ "MB" "GB") by done.
      by rewrite endswith_append, drop_last_2_append.
    + by rewrite endswith_append, drop_last_2_append.
  - intros min_size Hnone. unfold min_bytes_of.
    assert (forall unit factor,
              (unit, factor) ∈ UNITS -> endswith (upper min_size) unit = false) as Hends.
    { intros unit factor Hunit.
      destruct (endswith (upper min_size) unit) eqn:Hu; [|done].
      apply endswith_spec in Hu as [number Hu]. by destruct (Hnone number unit factor). }
    rewrite (Hends "GB" (1024 ^ 3)), (Hends "MB" (1024 ^ 2)), (Hends "KB" 1024);
      [done| | |]; unfold UNITS; set_solver.
  - intros min_size. unfold min_bytes_of. by rewrite upper_idemp.
Qed.

(** With whole numbers for floats, "2gb" is [2 * 1024^3] bytes and
    "512Kb" is [512 * 1024]; a unit without a number raises. *)
Lemma min_bytes_of_units_witness :
  min_bytes_of (float := Z) "2gb" = Ok 2147483648 /\
  min_bytes_of (float := Z) "512Kb" = Ok 524288 /\
  min_bytes_of (float := Z) "MB" = Raise ValueError.
Proof.
  pose proof (proj1 (min_bytes_of_units (float := Z))) as Hunits.
  split; [|split].
  - rewrite (Hunits "2gb" "2" "GB" (1024 ^ 3)); [reflexivity|set_solver|reflexivity].
  - rewrite (Hunits "512Kb" "512" "KB" 1024); [reflexivity|set_solver|reflexivity].
  - rewrite (Hunits "MB" "" "MB" (1024 ^ 2)); [reflexivity|set_solver|reflexivity].
Defined.

(** ** More on the scanner: what a scan looks at *)

Lemma prefix_snoc_inv (l k : path) (x : string) :
  l `prefix_of` k ++ [x] -> l = k ++ [x] \/ l `prefix_of` k.
Proof.
  intros [s Hs]. destruct s as [|y s _] using rev_ind.
  - left. by rewrite app_nil_r in Hs.
  - right. rewrite app_assoc in Hs. apply app_inj_tail in Hs as [-> _]. by eexists.
Qed.

Section ScanGuards.
Context {fs : Type} `{FileSystem fs}.
Variable σ : fs.
Variable categories : option (list string).
Variable max_depth : option Z.
Variable min_size : Z.
Variable root : path.

(** The induction over the scanner once more, now handing on what [scan]
    has checked of the directory it is listing. *)
Section GuardedRule.
Variable Q : path -> Prop.
Variable P : scan_state -> Prop.
Hypothesis descend : forall dir n,
  Q dir -> listed σ max_depth root dir ->
  match_entry categories n = None -> Q (dir ++ [n]).
Hypothesis record : forall dir n st cat type_name size,
  Q dir -> listed σ max_depth root dir -> P st ->
  match_entry categories n = Some (cat, type_name) ->
  get_size σ (dir ++ [n]) = Ok size ->
  min_size <= size ->
  P (record_match st (mkMatch (dir ++ [n]) cat type_name size)).

Lemma scan_entries_guarded (rec : path -> scan_state -> result scan_state)
    (dir : path) (names : list string) :
  (forall n st1 st2, rec (dir ++ [n]) st1 = Ok st2 -> Q (dir ++ [n]) -> P st1 -> P st2) ->
  Q dir -> listed σ max_depth root dir ->
  forall st st',
    P st ->
    scan_entries σ categories min_size rec (map (fun n => dir ++ [n]) names) st = Ok st' ->
    P st'.
Proof.
  intros Hrec Hdir Hlisted. induction names as [|n names IH]; intros st st' Hst; simpl.
  - by intros [= <-].
  - destruct (scan_entry σ categories min_size rec (dir ++ [n]) st) as [st1|e] eqn:Hentry;
      [|done].
    simpl. apply IH. revert Hentry. unfold scan_entry. rewrite name_child.
    case_bool_decide as Hseen; [by intros [= <-]|].
    destruct (match_entry categories n) as [[cat type_name]|] eqn:Hm.
    + destruct (get_size σ (dir ++ [n])) as [size|e] eqn:Hsize; [|done].
      simpl. destruct (min_size <=? size) eqn:Hle; intros [= <-]; [|done].
      apply (record dir n st cat type_name size); auto. lia.
    + destruct (fs_is_dir σ (dir ++ [n])); [|by intros [= <-]].
      intros Hscan. eapply Hrec; eauto.
Qed.

Lemma scan_guarded (fuel : nat) :
  forall (p : path) (st st' : scan_state),
    scan σ categories max_depth min_size root fuel p st = Ok st' ->
    Q p -> P st -> P st'.
Proof.
  induction fuel as [|fuel IH]; intros p st st'; [done|]. rewrite scan_S.
  destruct (bool_decide _ || negb (fs_exists σ p)) eqn:Hskip; [by intros [= <-]|].
  apply orb_false_elim in Hskip as [_ Hex]. apply negb_false_iff in Hex.
  case_bool_decide as Hname; [by intros [= <-]|].
  destruct (too_deep max_depth root p) eqn:Hdeep; [by intros [= <-]|].
  destruct (fs_iterdir σ p) as [names|e] eqn:Hls.
  - intros Hscan Hp Hst. eapply scan_entries_guarded; eauto. by repeat split.
  - destruct e; try done. by intros [= <-].
Qed.

End GuardedRule.

Lemma way_listed_child (dir : path) (n : string) :
  way_listed σ max_depth root dir ->
  listed σ max_depth root (dir ++ [n]) ->
  way_listed σ max_depth root (dir ++ [n]).
Proof.
  intros Hway Hlisted anc Hanc Hpre.
  apply prefix_snoc_inv in Hpre as [->|Hpre]; [done|]. by apply Hway.
Qed.

Lemma scan_on_listed_way (fuel : nat) (st : scan_state) :
  scan σ categories max_depth min_size root fuel root (mkScan ∅ []) = Ok st ->
  Forall (on_listed_way σ max_depth root) (matches st).
Proof.
  intros Hscan.
  eapply (scan_guarded
            (fun dir => root `prefix_of` dir /\
                        (listed σ max_depth root dir -> way_listed σ max_depth root dir))
            (fun st => Forall (on_listed_way σ max_depth root) (matches st)));
    [| |exact Hscan| |].
  - intros dir n [Hroot Hway] Hlisted _. split; [by apply prefix_app_r|].
    intros Hchild. apply way_listed_child; auto.
  - intros dir n st0 cat type_name size [Hroot Hway] Hlisted Hst _ _ _.
    unfold record_match. simpl. apply Forall_app. split; [done|].
    constructor; [|constructor]. exists dir, n. auto.
  - split; [done|]. intros Hlisted anc Hanc Hpre.
    by replace anc with root by by apply (anti_symm prefix).
  - constructor.
Qed.

End ScanGuards.

Lemma scan_dir_on_listed_way {fs} `{FileSystem fs} (fuel : nat) (σ : fs) (root : path)
    (categories : option (list string)) (max_depth : option Z) (min_size : Z)
    (ms : list Match) :
  scan_dir fuel σ root categories max_depth min_size = Ok ms ->
  Forall (on_listed_way σ max_depth (fs_resolve σ root)) ms.
Proof.
  unfold scan_dir.
  destruct (scan _ _ _ _ _ _ _ _) as [st|e] eqn:Hscan; [|done].
  simpl. intros [= <-]. rewrite sorted_by_size_desc_perm.
  by eapply scan_on_listed_way.
Qed.

(** Nothing is reported from inside a skipped directory: every directory
    from the resolved root (included) down to the one that holds a match
    existed when the scan listed it and bears none of the names [.git],
    [.hg], [.svn], [$RECYCLE.BIN], [Windows], [Program Files].  A root
    with such a name gives no match at all. *)
Theorem scan_dir_stays_out_of_skipped {fs} `{FileSystem fs} (fuel : nat) (σ : fs)
    (root : path) (categories : option (list string)) (max_depth : option Z)
    (min_size : Z) (ms : list Match) :
  scan_dir fuel σ root categories max_depth min_size = Ok ms ->
  (forall m dir,
     m ∈ ms ->
     fs_resolve σ root `prefix_of` dir -> dir `prefix_of` m_path m -> dir <> m_path m ->
     (name dir ∉ skip_dirs) /\ fs_exists σ dir = true) /\
  (name (fs_resolve σ root) ∈ skip_dirs -> ms = []).
Proof.
  intros Hscan. apply scan_dir_on_listed_way in Hscan.
  rewrite Forall_forall in Hscan.
  assert (forall m dir,
    m ∈ ms ->
    fs_resolve σ root `prefix_of` dir -> dir `prefix_of` m_path m -> dir <> m_path m ->
    listed σ max_depth (fs_resolve σ root) dir) as Hlisted.
  { intros m dir Hm Hroot Hpre Hne.
    destruct (Hscan m Hm) as (parent & n & Hpath & _ & Hway).
    rewrite Hpath in Hpre, Hne.
    apply prefix_snoc_inv in Hpre as [->|Hpre]; [done|]. by apply Hway. }
  split.
  - intros m dir Hm Hroot Hpre Hne.
    by destruct (Hlisted m dir Hm Hroot Hpre Hne) as (Hex & Hname & _).
  - intros Hskip. destruct ms as [|m ms]; [done|].
    destruct (Hscan m) as (parent & n & Hpath & Hroot & _); [left|].
    destruct (Hlisted m (fs_resolve σ root)) as (_ & Hname & _); try done.
    + left.
    + rewrite Hpath. by apply prefix_app_r.
    + rewrite Hpath. intros Heq. destruct Hroot as [k ->].
      apply (f_equal length) in Heq. rewrite !length_app in Heq. simpl in Heq. lia.
Qed.

Lemma scan_dir_stays_out_of_skipped_witness :
  scan_dir RECURSION_LIMIT guarded_tree ["r"] None None DEFAULT_MIN_SIZE =
    Ok [ mkMatch ["r"; "cache"; "node_modules"] "node" "node_modules" (3 * Posix.MiB);
         mkMatch ["r"; "a"; "b"; "node_modules"] "node" "node_modules" (2 * Posix.MiB) ] /\
  scan_dir RECURSION_LIMIT guarded_tree ["r"; ".git"] None None DEFAULT_MIN_SIZE = Ok [] /\
  (name (fs_resolve guarded_tree ["r"; ".git"]) ∈ skip_dirs -> [] = @nil Match).
Proof.
  split; [vm_compute; reflexivity|].
  assert (scan_dir RECURSION_LIMIT guarded_tree ["r"; ".git"] None None DEFAULT_MIN_SIZE
            = Ok []) as Hscan by (vm_compute; reflexivity).
  split; [exact Hscan|].
  exact (proj2 (scan_dir_stays_out_of_skipped _ _ _ _ _ _ _ Hscan)).
Defined.

(** A depth limit other than 0 bounds how far below the resolved root a
    match can lie: at most one level more than the limit, the limit being
    checked on the directory that is listed and not on its entries.  A
    negative limit gives no match.  (The limit 0 is no limit: [scan] tests
    the truth of [max_depth].) *)
Theorem scan_dir_depth_limit {fs} `{FileSystem fs} (fuel : nat) (σ : fs)
    (root : path) (categories : option (list string)) (limit : Z)
    (min_size : Z) (ms : list Match) :
  scan_dir fuel σ root categories (Some limit) min_size = Ok ms ->
  limit <> 0 ->
  Forall (fun m => 1 <= depth_below (fs_resolve σ root) (m_path m) <= limit + 1) ms /\
  (limit < 0 -> ms = []).
Proof.
  intros Hscan Hlimit. apply scan_dir_on_listed_way in Hscan.
  assert (Forall (fun m => 1 <= depth_below (fs_resolve σ root) (m_path m) <= limit + 1) ms)
    as Hdepth.
  { eapply Forall_impl; [exact Hscan|].
    intros m (dir & n & -> & [k ->] & Hway).
    destruct (Hway (fs_resolve σ root ++ k)) as (_ & _ & Hdeep); [by eexists|done|].
    unfold too_deep in Hdeep. unfold depth_below.
    destruct (Z.eqb_spec limit 0) as [|_]; [done|]. simpl in Hdeep.
    apply Z.ltb_ge in Hdeep. rewrite !length_app in *. simpl length. lia. }
  split; [done|]. intros Hneg. destruct ms as [|m ms]; [done|].
  apply Forall_inv in Hdepth. lia.
Qed.

Lemma scan_dir_depth_limit_witness :
  scan_dir RECURSION_LIMIT guarded_tree ["r"] None (Some 1) DEFAULT_MIN_SIZE =
    Ok [ mkMatch ["r"; "cache"; "node_modules"] "node" "node_modules" (3 * Posix.MiB) ] /\
  Forall (fun m => 1 <= depth_below (fs_resolve guarded_tree ["r"]) (m_path m) <= 1 + 1)
    [ mkMatch ["r"; "cache"; "node_modules"] "node" "node_modules" (3 * Posix.MiB) ] /\
  scan_dir RECURSION_LIMIT guarded_tree ["r"] None (Some 0) DEFAULT_MIN_SIZE =
    scan_dir RECURSION_LIMIT guarded_tree ["r"] None None DEFAULT_MIN_SIZE.
Proof.
  assert (scan_dir RECURSION_LIMIT guarded_tree ["r"] None (Some 1) DEFAULT_MIN_SIZE =
    Ok [ mkMatch ["r"; "cache"; "node_modules"] "node" "node_modules" (3 * Posix.MiB) ])
    as Hscan by (vm_compute; reflexivity).
  split; [exact Hscan|]. split; [|vm_compute; reflexivity].
  refine (proj1 (scan_dir_depth_limit _ _ _ _ _ _ _ Hscan _)). discriminate.
Defined.

Lemma match_entry_registered (categories : option (list string)) (n cat type_name : string) :
  match_entry categories n = Some (cat, type_name) ->
  category_allowed categories cat = true /\
  exists patterns, (cat, type_name, patterns) ∈ registered categories.
Proof.
  unfold match_entry. rewrite match_categories_find.
  destruct (find _ _) as [[[c t] ps]|] eqn:Hfind; [|done].
  simpl. intros [= -> ->]. apply find_some in Hfind as [Hin _].
  split.
  - apply in_flat_map in Hin as ([c types] & _ & Hin). simpl in Hin.
    destruct (category_allowed categories c) eqn:Hc; [|done].
    apply in_map_iff in Hin as (ty & [= <- _ _] & _). done.
  - exists ps. by apply list_elem_of_In.
Qed.

(** The category filter is respected: every match carries a category and
    a type registered together in the catalogue, and when a non-empty
    filter is given the category is one of the filter's.  (An empty filter
    is no filter.) *)
Theorem scan_dir_respects_category_filter {fs} `{FileSystem fs} (fuel : nat) (σ : fs)
    (root : path) (categories : option (list string)) (max_depth : option Z)
    (min_size : Z) (ms : list Match) :
  scan_dir fuel σ root categories max_depth min_size = Ok ms ->
  Forall (fun m => exists patterns,
            (m_category m, m_cache_type m, patterns) ∈ registered None) ms /\
  (forall c cs, categories = Some (c :: cs) ->
     Forall (fun m => m_category m ∈ c :: cs) ms).
Proof.
  intros Hscan. apply scan_dir_sound in Hscan as [Hsound _]. split.
  - eapply Forall_impl; [exact Hsound|].
    intros m [(dir & n & _ & _ & Hmatch) _].
    apply match_entry_registered in Hmatch as [_ (ps & Hin)]. exists ps.
    revert Hin. unfold registered. rewrite !list_elem_of_In, !in_flat_map.
    intros ([c types] & Hc & Hin). exists (c, types). split; [done|].
    simpl in *. by destruct (category_allowed categories c).
  - intros c cs ->. eapply Forall_impl; [exact Hsound|].
    intros m [(dir & n & _ & _ & Hmatch) _].
    apply match_entry_registered in Hmatch as [Hallowed _].
    simpl in Hallowed. by apply bool_decide_eq_true in Hallowed.
Qed.

Lemma scan_dir_respects_category_filter_witness :
  scan_dir RECURSION_LIMIT Posix.locked_tree ["w"] (Some ["rust"; "node"]) None
      DEFAULT_MIN_SIZE =
    Ok [ mkMatch ["w"; "node_modules"] "node" "node_modules" (3 * Posix.MiB);
         mkMatch ["w"; "target"] "rust" "target" Posix.MiB ] /\
  Forall (fun m => m_category m ∈ ["rust"; "node"])
    [ mkMatch ["w"; "node_modules"] "node" "node_modules" (3 * Posix.MiB);
      mkMatch ["w"; "target"] "rust" "target" Posix.MiB ].
Proof.
  assert (scan_dir RECURSION_LIMIT Posix.locked_tree ["w"] (Some ["rust"; "node"]) None
            DEFAULT_MIN_SIZE =
    Ok [ mkMatch ["w"; "node_modules"] "node" "node_modules" (3 * Posix.MiB);
         mkMatch ["w"; "target"] "rust" "target" Posix.MiB ])
    as Hscan by (vm_compute; reflexivity).
  split; [exact Hscan|].
  exact (proj2 (scan_dir_respects_category_filter _ _ _ _ _ _ _ Hscan) _ _ eq_refl).
Defined.

(** With a positive threshold every match existed when it was measured:
    [get_size] gives 0 for what does not exist. *)
Theorem scan_dir_matches_exist {fs} `{FileSystem fs} (fuel : nat) (σ : fs)
    (root : path) (categories : option (list string)) (max_depth : option Z)
    (min_size : Z) (ms : list Match) :
  scan_dir fuel σ root categories max_depth min_size = Ok ms ->
  0 < min_size ->
  Forall (fun m => fs_exists σ (m_path m) = true) ms.
Proof.
  intros Hscan Hmin. apply scan_dir_sound in Hscan as [Hsound _].
  eapply Forall_impl; [exact Hsound|].
  intros m (_ & Hsize & Hle). unfold get_size in Hsize.
  destruct (fs_exists σ (m_path m)); [done|].
  simpl in Hsize. injection Hsize as Hsize. lia.
Qed.

Lemma scan_dir_matches_exist_witness :
  scan_dir RECURSION_LIMIT guarded_tree ["r"] None None 1 =
    Ok [ mkMatch ["r"; "cache"; "node_modules"] "node" "node_modules" (3 * Posix.MiB);
         mkMatch ["r"; "a"; "b"; "node_modules"] "node" "node_modules" (2 * Posix.MiB) ] /\
  Forall (fun m => fs_exists guarded_tree (m_path m) = true)
    [ mkMatch ["r"; "cache"; "node_modules"] "node" "node_modules" (3 * Posix.MiB);
      mkMatch ["r"; "a"; "b"; "node_modules"] "node" "node_modules" (2 * Posix.MiB) ].
Proof.
  assert (scan_dir RECURSION_LIMIT guarded_tree ["r"] None None 1 =
    Ok [ mkMatch ["r"; "cache"; "node_modules"] "node" "node_modules" (3 * Posix.MiB);
         mkMatch ["r"; "a"; "b"; "node_modules"] "node" "node_modules" (2 * Posix.MiB) ])
    as Hscan by (vm_compute; reflexivity).
  split; [exact Hscan|].
  refine (scan_dir_matches_exist _ _ _ _ _ _ _ Hscan _). lia.
Defined.

(** With the threshold 0 the link to nowhere named [build] is reported,
    with size 0, though it does not exist. *)
Example dangling_link_reported_at_zero :
  scan_dir RECURSION_LIMIT guarded_tree ["r"] None None 0 =
    Ok [ mkMatch ["r"; "cache"; "node_modules"] "node" "node_modules" (3 * Posix.MiB);
         mkMatch ["r"; "a"; "b"; "node_modules"] "node" "node_modules" (2 * Posix.MiB);
         mkMatch ["r"; "build"] "python" "eggs" 0 ] /\
  fs_exists guarded_tree ["r"; "build"] = false.
Proof. split; vm_compute; reflexivity. Qed.

(** ** Order among equal sizes *)

Lemma insert_by_size_stable (size : Z) (m : Match) (l : list Match) :
  filter (fun m' => m_size m' = size) (insert_by_size m l) =
  filter (fun m' => m_size m' = size) (m :: l).
Proof.
  induction l as [|m' l IH]; [done|]. simpl.
  destruct (m_size m' <=? m_size m) eqn:Hle; [done|].
  apply Z.leb_gt in Hle. rewrite !filter_cons in *.
  repeat case_decide; simplify_eq; try lia; by rewrite ?IH.
Qed.

Lemma descending_determined (a b : list Match) :
  size_descending a -> size_descending b ->
  (forall size, filter (fun m => m_size m = size) a = filter (fun m => m_size m = size) b) ->
  a = b.
Proof.
  unfold size_descending. intros Ha. revert b.
  induction Ha as [|x a Ha IH Hxa]; intros b Hb Hsame.
  - destruct b as [|y b]; [done|]. specialize (Hsame (m_size y)).
    rewrite filter_nil, filter_cons in Hsame. by case_decide.
  - destruct Hb as [|y b Hb Hyb].
    { specialize (Hsame (m_size x)). rewrite filter_nil, filter_cons in Hsame.
      by case_decide. }
    assert (m_size x = m_size y) as Hxy.
    { pose proof (Hsame (m_size x)) as Hx. pose proof (Hsame (m_size y)) as Hy.
      rewrite !filter_cons in Hx, Hy. repeat case_decide; try done.
      - assert (x ∈ filter (fun m => m_size m = m_size x) b) as Hin
          by (rewrite <- Hx; left).
        apply list_elem_of_filter in Hin as [_ Hin].
        rewrite Forall_forall in Hyb. specialize (Hyb x Hin).
        assert (y ∈ filter (fun m => m_size m = m_size y) a) as Hin'
          by (rewrite Hy; left).
        apply list_elem_of_filter in Hin' as [_ Hin'].
        rewrite Forall_forall in Hxa. specialize (Hxa y Hin'). lia. }
    assert (x = y) as ->.
    { specialize (Hsame (m_size x)). rewrite !filter_cons in Hsame.
      repeat case_decide; try done. by injection Hsame. }
    f_equal. apply IH; [done|]. intros size. specialize (Hsame size).
    rewrite !filter_cons in Hsame. case_decide; [by injection Hsame|done].
Qed.

(** [sorted(..., reverse=True)] is stable: matches of the same size come
    out in the order they went in, here the order in which the scan found
    them.  The result is the only list in descending order of size that
    keeps, size by size, the matches given and their order; a list already
    in descending order is returned as it is. *)
Theorem sorted_by_size_desc_stable (l : list Match) :
  (forall size,
     filter (fun m => m_size m = size) (sorted_by_size_desc l) =
     filter (fun m => m_size m = size) l) /\
  size_descending (sorted_by_size_desc l) /\
  (forall l',
     size_descending l' ->
     (forall size,
        filter (fun m => m_size m = size) l' = filter (fun m => m_size m = size) l) ->
     l' = sorted_by_size_desc l).
Proof.
  assert (forall size,
     filter (fun m => m_size m = size) (sorted_by_size_desc l) =
     filter (fun m => m_size m = size) l) as Hstable.
  { intros size. induction l as [|m l IH]; [done|]. simpl.
    rewrite insert_by_size_stable, !filter_cons. by rewrite IH. }
  split; [done|]. split; [apply sorted_by_size_desc_descending|].
  intros l' Hdesc Hsame. apply descending_determined; [done| |].
  - apply sorted_by_size_desc_descending.
  - intros size. by rewrite Hsame, Hstable.
Qed.

(** ** The global caches *)

Lemma scan_global_fold {fs} `{FileSystem fs} (σ : fs) (min_size : Z)
    (caches : list (string * result path)) :
  forall (done : list (string * result path)) (found : list Match),
    Forall (fun m => m_category m = "global" /\
                     (m_cache_type m, Ok (m_path m)) ∈ done /\
                     fs_exists σ (m_path m) = true) found ->
    map m_cache_type found `sublist_of` map fst done ->
    Forall (fun m => m_category m = "global" /\
                     (m_cache_type m, Ok (m_path m)) ∈ done ++ caches /\
                     fs_exists σ (m_path m) = true)
      (fold_left (scan_global_entry σ min_size) caches found) /\
    map m_cache_type (fold_left (scan_global_entry σ min_size) caches found)
      `sublist_of` map fst (done ++ caches).
Proof.
  induction caches as [|[cache_name get_path] caches IH]; intros done found Hfound Hsub.
  - by rewrite app_nil_r.
  - simpl. replace (done ++ (cache_name, get_path) :: caches)
      with ((done ++ [(cache_name, get_path)]) ++ caches) by by rewrite <- app_assoc.
    assert (Forall (fun m => m_category m = "global" /\
                     (m_cache_type m, Ok (m_path m)) ∈ done ++ [(cache_name, get_path)] /\
                     fs_exists σ (m_path m) = true) found) as Hfound'.
    { eapply Forall_impl; [exact Hfound|]. intros m (? & ? & ?).
      repeat split; [done| |done]. apply elem_of_app. by left. }
    assert (map m_cache_type found `sublist_of`
            map fst (done ++ [(cache_name, get_path)])) as Hsub'.
    { rewrite map_app. by apply sublist_inserts_r. }
    apply IH.
    + destruct get_path as [p|e]; simpl; [|done].
      destruct (fs_exists σ p) eqn:Hex; [|done].
      destruct (get_size σ p) as [size|e]; simpl; [|done].
      destruct (min_size <=? size); simpl; [|done].
      apply Forall_app. split; [done|]. constructor; [|constructor]. simpl.
      repeat split; [|done]. apply elem_of_app. right. left.
    + destruct get_path as [p|e]; simpl; [|done].
      destruct (fs_exists σ p); [|done].
      destruct (get_size σ p) as [size|e]; simpl; [|done].
      destruct (min_size <=? size); simpl; [|done].
      rewrite !map_app. simpl. by apply sublist_app.
Qed.

(** The scan of the global caches returns at most one match for each of
    the five registered names, labelled [global] with the name as type, at
    the path registered for the name on this platform, which existed; and
    it returns nothing when the home directory cannot be found. *)
Theorem scan_global_one_per_cache {fs} `{FileSystem fs} (σ : fs) (env : environment)
    (min_size : Z) :
  Forall (fun m => m_category m = "global" /\
                   (m_cache_type m, Ok (m_path m)) ∈ GLOBAL_CACHES env /\
                   fs_exists σ (m_path m) = true)
    (scan_global σ env min_size) /\
  NoDup (map m_cache_type (scan_global σ env min_size)) /\
  (length (scan_global σ env min_size) <= 5)%nat /\
  (forall e, home env = Raise e -> scan_global σ env min_size = []).
Proof.
  destruct (scan_global_fold σ min_size (GLOBAL_CACHES env) [] []) as [Hall Hsub];
    [constructor|constructor|].
  unfold scan_global.
  assert (map m_cache_type
            (sorted_by_size_desc
               (fold_left (scan_global_entry σ min_size) (GLOBAL_CACHES env) []))
          ≡ₚ map m_cache_type
               (fold_left (scan_global_entry σ min_size) (GLOBAL_CACHES env) []))
    as Hperm by apply Permutation_map, sorted_by_size_desc_perm.
  split; [by rewrite sorted_by_size_desc_perm|]. split; [|split].
  - rewrite Hperm. eapply sublist_NoDup; [|exact Hsub].
    change (NoDup ["npm"; "yarn"; "pip"; "cargo"; "go"]).
    apply (bool_decide_unpack (NoDup ["npm"; "yarn"; "pip"; "cargo"; "go"])).
    vm_compute. exact I.
  - rewrite sorted_by_size_desc_perm. apply sublist_length in Hsub.
    rewrite !length_map in Hsub. exact Hsub.
  - intros e Hhome. unfold GLOBAL_CACHES, under_home. by rewrite Hhome.
Qed.

(** ** Sizes *)


Lemma project_tree_files (fuel : nat) (p canon : path) (size : Z) :
  Posix.resolve_at fuel Posix.project_tree p = Some (canon, Posix.File size) ->
  0 <= size.
Proof.
  destruct p as [|c1 [|c2 [|c3 [|c4 [|c5 rest]]]]];
    [| | | | |by rewrite project_tree_resolve];
    unfold Posix.project_tree, Posix.dir;
    destruct fuel; cbn [Posix.resolve_at Posix.child];
    repeat (match goal with
            | |- context [String.eqb ?a ?b] =>
                destruct (String.eqb a b); cbn [Posix.resolve_at Posix.child]
            end);
    try done; intros [= _ <-]; done.
Qed.

Lemma project_tree_sizes_nonneg : sizes_nonneg Posix.project_tree.
Proof.
  intros p size Hstat.
  change (Posix.stat_size Posix.project_tree p = Some size) in Hstat.
  unfold Posix.stat_size, Posix.lookup in Hstat.
  destruct (Posix.resolve_at _ _ _) as [[canon [sz|r w es|t]]|] eqn:Hres;
    try (injection Hstat as <-; done); [|done].
  injection Hstat as <-. by eapply project_tree_files.
Qed.


(** ** What a clean can report *)

Lemma deleted_matches_sublist {fs} `{FileSystem fs} (σ : fs) (ms : list Match) :
  deleted_matches σ ms `sublist_of` ms.
Proof.
  revert σ. induction ms as [|m ms IH]; intros σ; simpl; [done|].
  destruct (delete_match σ m) as [σ' [[]|e]]; simpl.
  - by apply sublist_skip.
  - by apply sublist_cons.
Qed.

Lemma total_size_sublist (l1 l2 : list Match) :
  l1 `sublist_of` l2 ->
  Forall (fun m => 0 <= m_size m) l2 ->
  0 <= total_size l1 <= total_size l2 /\
  (length l1 = length l2 -> l1 = l2).
Proof.
  induction 1 as [|m l1 l2 Hsub IH|m l1 l2 Hsub IH]; intros Hall.
  - done.
  - apply Forall_cons in Hall as [Hm Hall]. rewrite !total_size_cons.
    destruct (IH Hall) as [Hle Heq]. split; [lia|].
    simpl. intros Hlen. f_equal. apply Heq. lia.
  - apply Forall_cons in Hall as [Hm Hall]. rewrite total_size_cons.
    destruct (IH Hall) as [Hle Heq]. split; [lia|].
    simpl. intros Hlen. apply sublist_length in Hsub. lia.
Qed.

(** What the final panel of a clean says never overstates: it only comes
    up in execute mode, the number of deleted items is at most the number
    of matches, the bytes freed are at most the total announced before
    (sizes being non-negative), with equality when every item was deleted;
    and the disk is then the one left by the attempts. *)
Theorem clean_never_overstates {fs text} `{FileSystem fs} `{JsonCodec text}
    (w w' : world fs text) (now : string) (confirm : bool) (ms : list Match)
    (dry_run : bool) (scan_path : string) (skip_confirm : bool) (deleted freed : Z) :
  clean_matches w now confirm ms dry_run scan_path skip_confirm
    = (w', Ok (Done deleted freed)) ->
  Forall (fun m => 0 <= m_size m) ms ->
  dry_run = false /\
  0 <= deleted <= Z.of_nat (length ms) /\
  0 <= freed <= total_size ms /\
  (deleted = Z.of_nat (length ms) -> freed = total_size ms) /\
  disk w' = disk_after (disk w) ms.
Proof.
  intros Hclean Hsizes.
  assert (ms <> []) as Hne by (by intros ->).
  destruct dry_run.
  { unfold clean_matches in Hclean. destruct ms; [done|].
    by destruct (add_session _ _ _ _ _ _). }
  destruct (negb skip_confirm && negb confirm) eqn:Hask.
  { unfold clean_matches in Hclean. destruct ms; [done|].
    by rewrite Hask in Hclean. }
  rewrite clean_matches_execute in Hclean by done.
  rewrite delete_all_spec, !Z.add_0_l in Hclean.
  destruct (add_session _ _ _ _ _ _) as [file|e]; [|done].
  injection Hclean as <- <- <-.
  pose proof (deleted_matches_sublist (disk w) ms) as Hsub.
  destruct (total_size_sublist _ _ Hsub Hsizes) as [Hle Heq].
  pose proof (sublist_length _ _ Hsub) as Hlen.
  split; [done|]. split; [lia|]. split; [done|]. split; [|done].
  intros Hall. rewrite Heq; [done|lia].
Qed.

Lemma clean_never_overstates_witness :
  false = false /\
  0 <= 2 <= Z.of_nat (length locked_matches) /\
  0 <= 4194304 <= total_size locked_matches /\
  (2 = Z.of_nat (length locked_matches) -> 4194304 = total_size locked_matches) /\
  disk (mkWorld
     (Posix.dir [ ("w", Posix.dir [ ("dist", Posix.Dir true false
                                                [ ("app.bin", Posix.File (2 * Posix.MiB)) ]) ]) ])
     (Some (Some (PList
        [ PDict [ ("date", PStr "2024-05-01T10:20");
                  ("path", PStr "/w");
                  ("size", PInt 4194304);
                  ("items", PInt 2);
                  ("dry_run", PBool false) ] ]))))
    = disk_after (disk locked_world) locked_matches.
Proof.
  apply (clean_never_overstates locked_world _ "2024-05-01T10:20:30.123456" false
           locked_matches false "/w" true).
  - vm_compute. reflexivity.
  - repeat constructor; vm_compute; discriminate.
Defined.

(** ** What one call of [add_session] does to the store *)



(** A store whose wrapped value is not a list: the call raises and
    nothing is written. *)
Example add_session_on_wrapped_number :
  add_session (Some (Some (PDict [("sessions", PInt 5)])))
    "2024-05-01T10:20:30.123456" "/w" 10 1 false = Raise AttributeError.
Proof. reflexivity. Qed.

(** ** Printed sizes *)

Lemma round_half_even_near (n shift : Z) :
  0 <= shift ->
  2 * Z.abs (n - round_half_even n shift * 2 ^ shift) <= 2 ^ shift.
Proof.
  intros Hshift. unfold round_half_even.
  assert (0 < 2 ^ shift) as Hpos by (apply Z.pow_pos_nonneg; lia).
  pose proof (Z.div_mod n (2 ^ shift)) as Hdm.
  pose proof (Z.mod_pos_bound n (2 ^ shift) Hpos) as Hr.
  destruct (2 ^ shift <? 2 * (n mod 2 ^ shift)) eqn:Hgt; simpl.
  - apply Z.ltb_lt in Hgt. nia.
  - apply Z.ltb_ge in Hgt.
    destruct ((2 ^ shift =? 2 * (n mod 2 ^ shift)) && Z.odd (n / 2 ^ shift)) eqn:Htie.
    + apply andb_true_iff in Htie as [Htie _]. apply Z.eqb_eq in Htie. nia.
    + nia.
Qed.

Lemma int_div_1024_exact (b : Z) :
  0 < b < 2 ^ 53 -> int_div_1024 b = Ok (mkFloat b (-10)).
Proof.
  intros Hb. unfold int_div_1024.
  assert (Z.log2 b < 53) as Hlog by (apply Z.log2_lt_pow2; lia).
  replace (Z.max 0 (Z.log2 b + 1 - 53)) with 0 by lia.
  assert (round_half_even b 0 = b) as ->.
  { unfold round_half_even. change (2 ^ 0) with 1.
    rewrite Z.div_1_r, Z.mod_1_r. reflexivity. }
  change (0 - 10) with (-10). simpl f_mant. rewrite Z.pow_0_r, Z.mul_1_r.
  destruct (Z.leb_spec (2 ^ 1034) b) as [Hbig|_]; [|done].
  assert (2 ^ 53 < 2 ^ 1034) by (apply Z.pow_lt_mono_r; lia). lia.
Qed.

Lemma float_lt_1024_scaled (b e : Z) :
  e < 0 -> float_lt_1024 (mkFloat b e) = (b <? 1024 * 2 ^ (- e)).
Proof.
  intros He. unfold float_lt_1024. simpl f_exp. simpl f_mant.
  by destruct (Z.leb_spec 0 e); [lia|].
Qed.

Lemma tenths_scaled (b e : Z) :
  e < 0 -> tenths (mkFloat b e) = round_half_even (10 * b) (- e).
Proof.
  intros He. unfold tenths. simpl f_exp. simpl f_mant.
  by destruct (Z.leb_spec 0 e); [lia|].
Qed.

(** The unit and the number [fmt_size] prints.  Below 1024 the integer is
    printed as it is, with [B].  From 1024 up (and below 2^53, where the
    first division rounds nothing) a size that needs [k] divisions to come
    below 1024, or the four divisions there are, is printed in the [k]-th
    unit with one decimal, and the tenths shown are those nearest to the
    size divided by [1024^k]. *)
Theorem fmt_size_unit_and_tenths (b k : Z) :
  1 <= k <= 4 ->
  1024 ^ k <= b ->
  (k < 4 -> b < 1024 ^ (k + 1)) ->
  b < 2 ^ 53 ->
  exists t,
    fmt_size b = Ok (show_tenths t +:+ " " +:+ unit_after k) /\
    2 * Z.abs (10 * b - t * 1024 ^ k) <= 1024 ^ k.
Proof.
  intros Hk Hlow Hhigh Hexact.
  assert (1024 <= b) as H1024.
  { assert (1024 ^ 1 <= 1024 ^ k) by (apply Z.pow_le_mono_r; lia). lia. }
  exists (round_half_even (10 * b) (10 * k)). split.
  - unfold fmt_size. destruct (Z.ltb_spec b 1024); [lia|].
    rewrite int_div_1024_exact by lia. simpl mbind.
    assert (k = 1 \/ k = 2 \/ k = 3 \/ k = 4) as [-> | [-> | [-> | ->]]] by lia;
      unfold fmt_units, float_div_1024, format_1f; simpl f_mant; simpl f_exp.
    + rewrite (float_lt_1024_scaled b (-10)), (tenths_scaled b (-10)) by lia.
      change (- -10) with 10.
      destruct (Z.ltb_spec b (1024 * 2 ^ 10)); [done|].
      specialize (Hhigh ltac:(lia)). change (1024 ^ (1 + 1)) with (1024 * 2 ^ 10) in Hhigh. lia.
    + change (-10 - 10) with (- 20).
      rewrite (float_lt_1024_scaled b (-10)), (float_lt_1024_scaled b (-20)),
        (tenths_scaled b (-20)) by lia.
      change (- -10) with 10. change (- -20) with 20.
      change (1024 ^ 2) with (1024 * 2 ^ 10) in Hlow.
      destruct (Z.ltb_spec b (1024 * 2 ^ 10)); [lia|].
      destruct (Z.ltb_spec b (1024 * 2 ^ 20)); [done|].
      specialize (Hhigh ltac:(lia)). change (1024 ^ (2 + 1)) with (1024 * 2 ^ 20) in Hhigh. lia.
    + change (-10 - 10) with (- 20). change (-20 - 10) with (- 30).
      rewrite (float_lt_1024_scaled b (-10)), (float_lt_1024_scaled b (-20)),
        (float_lt_1024_scaled b (-30)), (tenths_scaled b (-30)) by lia.
      change (- -10) with 10. change (- -20) with 20. change (- -30) with 30.
      change (1024 ^ 3) with (1024 * 2 ^ 20) in Hlow.
      assert (1024 * 2 ^ 10 <= 1024 * 2 ^ 20) by (vm_compute; discriminate).
      destruct (Z.ltb_spec b (1024 * 2 ^ 10)); [lia|].
      destruct (Z.ltb_spec b (1024 * 2 ^ 20)); [lia|].
      destruct (Z.ltb_spec b (1024 * 2 ^ 30)); [done|].
      specialize (Hhigh ltac:(lia)). change (1024 ^ (3 + 1)) with (1024 * 2 ^ 30) in Hhigh. lia.
    + change (-10 - 10) with (- 20). change (-20 - 10) with (- 30).
      change (-30 - 10) with (- 40).
      rewrite (float_lt_1024_scaled b (-10)), (float_lt_1024_scaled b (-20)),
        (float_lt_1024_scaled b (-30)), (tenths_scaled b (-40)) by lia.
      change (- -10) with 10. change (- -20) with 20. change (- -30) with 30.
      change (- -40) with 40.
      change (1024 ^ 4) with (1024 * 2 ^ 30) in Hlow.
      assert (1024 * 2 ^ 10 <= 1024 * 2 ^ 20) by (vm_compute; discriminate).
      assert (1024 * 2 ^ 20 <= 1024 * 2 ^ 30) by (vm_compute; discriminate).
      destruct (Z.ltb_spec b (1024 * 2 ^ 10)); [lia|].
      destruct (Z.ltb_spec b (1024 * 2 ^ 20)); [lia|].
      destruct (Z.ltb_spec b (1024 * 2 ^ 30)); [lia|]. done.
  - replace (1024 ^ k) with (2 ^ (10 * k)).
    + apply round_half_even_near. lia.
    + change 1024 with (2 ^ 10). rewrite <- Z.pow_mul_r by lia. done.
Qed.

Lemma fmt_size_unit_and_tenths_witness :
  exists t,
    fmt_size 1048575 = Ok (show_tenths t +:+ " " +:+ unit_after 1) /\
    2 * Z.abs (10 * 1048575 - t * 1024 ^ 1) <= 1024 ^ 1.
Proof.
  apply (fmt_size_unit_and_tenths 1048575 1); [lia|vm_compute; discriminate| |].
  - intros _. vm_compute. reflexivity.
  - vm_compute. reflexivity.
Defined.

(** The sizes the specification lists, and two edges: one byte short of
    1 MiB is printed as 1024.0 KB, and 1280 bytes, exactly 1.25 KB, as
    1.2 KB. *)
Example fmt_size_examples :
  fmt_size 0 = Ok "0 B" /\
  fmt_size 1536 = Ok "1.5 KB" /\
  fmt_size 1048576 = Ok "1.0 MB" /\
  fmt_size (1024 ^ 4) = Ok "1.0 TB" /\
  fmt_size 1048575 = Ok "1024.0 KB" /\
  fmt_size 1280 = Ok "1.2 KB".
Proof. repeat split; vm_compute; reflexivity. Qed.

(** ** The totals by category *)

Lemma dict_value_add (cat key : string) (size : Z) (d : list (string * Z)) :
  dict_value cat (dict_add key size d) =
  dict_value cat d + (if String.eqb key cat then size else 0).
Proof.
  induction d as [|[k v] d IH]; simpl.
  - destruct (String.eqb key cat); lia.
  - destruct (String.eqb_spec k key) as [->|Hk]; simpl.
    + destruct (String.eqb key cat); lia.
    + destruct (String.eqb_spec k cat) as [Hc|_]; [|exact IH].
      destruct (String.eqb_spec key cat) as [Hc'|_]; [congruence|lia].
Qed.

Lemma dict_add_keys (key : string) (size : Z) (d : list (string * Z)) :
  map fst (dict_add key size d) =
  if bool_decide (key ∈ map fst d) then map fst d else map fst d ++ [key].
Proof.
  induction d as [|[k v] d IH]; simpl; [done|].
  destruct (String.eqb_spec k key) as [->|Hk]; simpl.
  - rewrite bool_decide_eq_true_2; [done|left].
  - rewrite IH. destruct (decide (key ∈ map fst d)) as [Hin|Hout].
    + assert (key ∈ k :: map fst d) as Hin' by by right.
      by rewrite (bool_decide_eq_true_2 _ Hin), (bool_decide_eq_true_2 _ Hin').
    + assert (key ∉ k :: map fst d) as Hout'.
      { intros [?|?]%elem_of_cons; by subst. }
      by rewrite (bool_decide_eq_false_2 _ Hout), (bool_decide_eq_false_2 _ Hout').
Qed.

Lemma sum_values_add (key : string) (size : Z) (d : list (string * Z)) :
  sum_values (dict_add key size d) = sum_values d + size.
Proof.
  unfold sum_values. induction d as [|[k v] d IH]; simpl; [lia|].
  destruct (String.eqb k key); simpl; lia.
Qed.

Lemma dict_value_elem (k : string) (v : Z) (d : list (string * Z)) :
  NoDup (map fst d) -> (k, v) ∈ d -> dict_value k d = v.
Proof.
  induction d as [|[k' v'] d IH]; simpl; intros Hnd Hin.
  - by apply elem_of_nil in Hin.
  - apply NoDup_cons in Hnd as [Hk' Hnd].
    apply elem_of_cons in Hin as [[= <- <-]|Hin]; [by rewrite String.eqb_refl|].
    destruct (String.eqb_spec k' k) as [->|_]; [|by apply IH].
    destruct Hk'. apply list_elem_of_In, in_map_iff. exists (k, v).
    split; [done|]. by apply list_elem_of_In.
Qed.

Lemma by_cat_from (ms : list Match) :
  forall d : list (string * Z),
    NoDup (map fst d) ->
    let d' := fold_left (fun d m => dict_add (m_category m) (m_size m) d) ms d in
    NoDup (map fst d') /\
    (forall cat, cat ∈ map fst d' <->
                 cat ∈ map fst d \/ exists m, m ∈ ms /\ m_category m = cat) /\
    (forall cat, dict_value cat d' =
                 dict_value cat d +
                 total_size (filter (fun m => m_category m = cat) ms)) /\
    sum_values d' = sum_values d + total_size ms.
Proof.
  induction ms as [|m ms IH]; intros d Hnd; simpl.
  - split; [done|]. split; [|split].
    + intros cat. split; [by left|]. intros [?|(m & Hm & _)]; [done|].
      by apply elem_of_nil in Hm.
    + intros cat. rewrite filter_nil. unfold total_size. simpl. lia.
    + unfold total_size. simpl. lia.
  - assert (NoDup (map fst (dict_add (m_category m) (m_size m) d))) as Hnd'.
    { rewrite dict_add_keys. case_bool_decide; [done|].
      apply NoDup_app. split; [done|]. split; [|apply NoDup_singleton].
      intros k Hk Hk'. apply list_elem_of_singleton in Hk'. by subst. }
    destruct (IH _ Hnd') as (Hkeys & Hin & Hval & Hsum).
    split; [done|]. split; [|split].
    + intros cat. rewrite Hin, dict_add_keys. split.
      * intros [Hcat|(m' & Hm' & Hc)].
        -- case_bool_decide; [by left|].
           apply elem_of_app in Hcat as [?|Hcat]; [by left|].
           apply list_elem_of_singleton in Hcat. right. exists m. split; [left|done].
        -- right. exists m'. split; [by right|done].
      * intros [Hcat|(m' & Hm' & Hc)].
        -- left. case_bool_decide; [done|]. apply elem_of_app. by left.
        -- apply elem_of_cons in Hm' as [->|Hm'].
           ++ left. subst cat. case_bool_decide; [done|].
              apply elem_of_app. right. by apply list_elem_of_singleton.
           ++ right. by exists m'.
    + intros cat. rewrite Hval, dict_value_add, filter_cons.
      destruct (String.eqb_spec (m_category m) cat) as [Hc|Hc]; case_decide; try done.
      * rewrite total_size_cons. lia.
      * lia.
    + rewrite Hsum, sum_values_add, total_size_cons. lia.
Qed.

Lemma insert_by_total_perm (item : string * Z) (l : list (string * Z)) :
  insert_by_total item l ≡ₚ item :: l.
Proof.
  induction l as [|item' l IH]; simpl; [done|].
  destruct (snd item' <=? snd item); [done|]. rewrite IH. apply perm_swap.
Qed.

Lemma sorted_by_total_desc_perm (l : list (string * Z)) :
  sorted_by_total_desc l ≡ₚ l.
Proof.
  induction l as [|item l IH]; simpl; [done|].
  rewrite insert_by_total_perm. by constructor.
Qed.

Lemma by_cat_lines (ms : list Match) :
  NoDup (map fst (by_cat ms)) /\
  (forall cat, cat ∈ map fst (by_cat ms) <-> exists m, m ∈ ms /\ m_category m = cat) /\
  (forall cat total,
     (cat, total) ∈ by_cat ms ->
     total = total_size (filter (fun m => m_category m = cat) ms)) /\
  sum_values (by_cat ms) = total_size ms.
Proof.
  destruct (by_cat_from ms [] (NoDup_nil_2 (A := string))) as (Hnd & Hin & Hval & Hsum).
  fold (by_cat ms) in Hnd, Hin, Hval, Hsum.
  split; [done|]. split; [|split].
  - intros cat. rewrite Hin. split; [|by right].
    intros [Hcat|?]; [|done]. by apply elem_of_nil in Hcat.
  - intros cat total Hline.
    rewrite <- (dict_value_elem cat total (by_cat ms)) by done.
    rewrite Hval. simpl. lia.
  - rewrite Hsum. unfold sum_values. simpl. lia.
Qed.

Lemma sorted_lines_of_by_cat (ms : list Match) :
  (forall cat total,
     In (cat, total) (sorted_by_total_desc (by_cat ms)) ->
     total = total_size (filter (fun m => m_category m = cat) ms)) /\
  length (sorted_by_total_desc (by_cat ms)) = length (by_cat ms).
Proof.
  destruct (by_cat_lines ms) as (_ & _ & Hval & _).
  pose proof (sorted_by_total_desc_perm (by_cat ms)) as Hperm. split.
  - intros cat total Hin%list_elem_of_In. rewrite Hperm in Hin. by apply Hval.
  - by rewrite Hperm.
Qed.

Lemma for_each_length {A B} (f : A -> result B) (l : list A) (bs : list B) :
  for_each f l = Ok bs -> length bs = length l.
Proof.
  revert bs. induction l as [|a l IH]; intros bs; simpl.
  - by intros [= <-].
  - destruct (f a) as [b|e]; simpl; [|done].
    destruct (for_each f l) as [bs'|e]; simpl; [|done].
    intros [= <-]. simpl. f_equal. by apply IH.
Qed.

(** The table by category adds up: it has one line for each category
    that has a match and no other, the total on a line is the sum of the
    sizes of the matches of that category, and the lines together give the
    total of the panel. *)
Theorem by_cat_adds_up (ms : list Match) :
  NoDup (map fst (sorted_by_total_desc (by_cat ms))) /\
  (forall cat,
     cat ∈ map fst (sorted_by_total_desc (by_cat ms)) <->
     exists m, m ∈ ms /\ m_category m = cat) /\
  (forall cat total,
     (cat, total) ∈ sorted_by_total_desc (by_cat ms) ->
     total = total_size (filter (fun m => m_category m = cat) ms)) /\
  sum_values (sorted_by_total_desc (by_cat ms)) = total_size ms.
Proof.
  destruct (by_cat_lines ms) as (Hnd & Hin & Hval & Hsum).
  pose proof (sorted_by_total_desc_perm (by_cat ms)) as Hperm.
  assert (map fst (sorted_by_total_desc (by_cat ms)) ≡ₚ map fst (by_cat ms)) as Hkeys
    by by apply Permutation_map.
  split; [by rewrite Hkeys|]. split; [|split].
  - intros cat. by rewrite Hkeys, Hin.
  - intros cat total Hline. rewrite Hperm in Hline. by apply Hval.
  - assert (forall l1 l2 : list (string * Z), l1 ≡ₚ l2 ->
              sum_values l1 = sum_values l2) as Hfold.
    { unfold sum_values. induction 1; simpl; lia. }
    by rewrite (Hfold _ _ Hperm).
Qed.

(** ** The path column *)

Lemma substring_length (n m : nat) (s : string) :
  (n + m <= String.length s)%nat -> String.length (substring n m s) = m.
Proof.
  revert n m. induction s as [|c s IH]; intros n m Hlen; simpl in *.
  - destruct n, m; simpl; lia.
  - destruct n as [|n].
    + destruct m as [|m]; simpl; [done|]. rewrite IH by lia. done.
    + apply IH. lia.
Qed.

Lemma substring_suffix (n : nat) (s : string) :
  (n <= String.length s)%nat ->
  exists front, s = front +:+ substring n (String.length s - n) s /\
                String.length front = n.
Proof.
  revert n. induction s as [|c s IH]; intros n Hlen; simpl in *.
  - exists "". destruct n; [|lia]. split; reflexivity.
  - destruct n as [|n].
    + exists "". split; [|done]. rewrite append_nil_l. simpl. f_equal.
      destruct (IH 0%nat) as (front & Heq & Hfront); [lia|].
      destruct front; [|done]. by rewrite append_nil_l, Nat.sub_0_r in Heq.
    + destruct (IH n) as (front & Heq & Hfront); [lia|].
      exists (String c front). split; [|simpl; lia].
      rewrite append_cons. by f_equal.
Qed.

(** A path in the table never takes more than 50 characters: a longer
    one is shown as three dots followed by its last 47 characters, a
    shorter one as it is. *)
Theorem display_path_fits (s : string) :
  (String.length (display_path s) <= 50)%nat /\
  ((String.length s <= 50)%nat -> display_path s = s) /\
  ((50 < String.length s)%nat ->
   exists front back,
     s = front +:+ back /\ String.length back = 47%nat /\
     display_path s = "..." +:+ back).
Proof.
  unfold display_path. destruct (Nat.ltb_spec 50 (String.length s)) as [Hlong|Hshort].
  - split; [|split; [lia|]].
    + rewrite length_append, substring_length by lia. simpl. lia.
    + intros _. destruct (substring_suffix (String.length s - 47) s) as (front & Heq & _);
        [lia|].
      replace (String.length s - (String.length s - 47))%nat with 47%nat in Heq by lia.
      exists front, (substring (String.length s - 47) 47 s).
      split; [done|]. split; [|done]. apply substring_length. lia.
  - split; [done|]. split; [done|lia].
Qed.

(** ** What [show_results] can raise *)

Lemma fmt_size_returns (b : Z) :
  b < 2 ^ 1033 -> exists s, fmt_size b = Ok s.
Proof.
  intros Hb. unfold fmt_size. destruct (Z.ltb_spec b 1024) as [|Hge]; [by eexists|].
  unfold int_div_1024. simpl f_mant.
  set (shift := Z.max 0 (Z.log2 b + 1 - 53)).
  assert (0 <= shift) as Hshift by (unfold shift; lia).
  pose proof (round_half_even_near b shift Hshift) as Hnear.
  assert (2 ^ shift <= b) as Hpow.
  { destruct (Z.log2_spec b) as [Hlow _]; [lia|].
    etrans; [|exact Hlow]. apply Z.pow_le_mono_r; [lia|].
    unfold shift. pose proof (Z.log2_nonneg b). lia. }
  assert (round_half_even b shift * 2 ^ shift < 2 ^ 1034) as Hlt.
  { change (2 ^ 1034) with (2 * 2 ^ 1033). lia. }
  destruct (Z.leb_spec (2 ^ 1034) (round_half_even b shift * 2 ^ shift)); [lia|].
  simpl. by eexists.
Qed.

Lemma for_each_returns {A B} (f : A -> result B) (l : list A) :
  Forall (fun a => exists b, f a = Ok b) l -> exists bs, for_each f l = Ok bs.
Proof.
  induction 1 as [|a l [b Hb] _ [bs Hbs]]; simpl; [by eexists|].
  rewrite Hb. simpl. rewrite Hbs. simpl. by eexists.
Qed.

Lemma enumerate_snd {A} (l : list A) : forall start, map snd (enumerate start l) = l.
Proof. induction l as [|a l IH]; intros start; simpl; [done|]. by rewrite IH. Qed.

Lemma show_results_nonempty (ms : list Match) :
  ms <> [] ->
  show_results ms =
  match fmt_size (total_size ms) with
  | Raise e => Raise e
  | Ok total =>
      match for_each (fun item : string * Z =>
                        size ← fmt_size (snd item); Ok (upper (fst item), size))
                     (sorted_by_total_desc (by_cat ms)) with
      | Raise e => Raise e
      | Ok categories =>
          match for_each (fun row : Z * Match =>
                            size ← fmt_size (m_size (snd row));
                            Ok (str_int (fst row),
                                display_path (path_str (m_path (snd row))),
                                m_cache_type (snd row),
                                size))
                         (enumerate 1 (take 10 ms)) with
          | Raise e => Raise e
          | Ok top => Ok (Results (Z.of_nat (length ms)) total categories top)
          end
      end
  end.
Proof. destruct ms as [|m0 ms0]; [done|]. intros _. reflexivity. Qed.



Example show_results_of_locked_tree :
  show_results locked_matches =
  Ok (Results 3 "6.0 MB"
        [ ("NODE", "3.0 MB"); ("PYTHON", "2.0 MB"); ("RUST", "1.0 MB") ]
        [ ("1", "/w/node_modules", "node_modules", "3.0 MB");
          ("2", "/w/dist", "eggs", "2.0 MB");
          ("3", "/w/target", "target", "1.0 MB") ]).
Proof. vm_compute. reflexivity. Qed.

(** ** The command [scan] *)

Section ScanCommand.
Context {fs text float : Type} `{FileSystem fs} `{JsonCodec text} `{PyFloat float}.

Lemma clean_matches_preview (w : world fs text) (now : string) (confirm : bool)
    (ms : list Match) (scan_path : string) (skip_confirm : bool) :
  disk (fst (clean_matches w now confirm ms true scan_path skip_confirm)) = disk w.
Proof.
  destruct ms as [|m ms]; [done|]. unfold clean_matches.
  by destruct (add_session _ _ _ _ _ _).
Qed.

Lemma clean_matches_declined (w : world fs text) (now : string) (ms : list Match)
    (scan_path : string) :
  fst (clean_matches w now false ms false scan_path false) = w.
Proof. by destruct ms. Qed.

Lemma clean_matches_disk (w : world fs text) (now : string) (confirm : bool)
    (ms : list Match) (dry_run : bool) (scan_path : string) (skip_confirm : bool) :
  disk (fst (clean_matches w now confirm ms dry_run scan_path skip_confirm)) =
  if negb dry_run && (skip_confirm || confirm)
  then disk_after (disk w) ms else disk w.
Proof.
  destruct dry_run; [apply clean_matches_preview|].
  destruct ms as [|m ms]; [by destruct (_ && _)|].
  destruct (negb skip_confirm && negb confirm) eqn:Hask.
  - unfold clean_matches. rewrite Hask.
    by destruct skip_confirm, confirm.
  - rewrite clean_matches_execute by done.
    rewrite delete_all_spec.
    replace (negb false && (skip_confirm || confirm)) with true
      by (by destruct skip_confirm, confirm).
    by destruct (add_session _ _ _ _ _ _).
Qed.

(** [scan] deletes on request only: without [--execute], or when the
    confirmation is asked for and declined, the disk after the command is
    the disk before it, whatever the arguments and whether the command
    returns or raises; a declined confirmation leaves the history file as
    it was too. *)
Theorem scan_command_deletes_on_request_only (fuel : nat) (w : world fs text)
    (env : environment) (now : string) (confirm : bool) (p : path)
    (execute incl_global : bool) (category : list string) (max_depth : option Z)
    (min_size : string) (yes : bool) :
  execute = false \/ (yes = false /\ confirm = false) ->
  disk (fst (scan_command (float := float) fuel w env now confirm p execute
               incl_global category max_depth min_size yes)) = disk w /\
  (execute = true ->
   fst (scan_command (float := float) fuel w env now confirm p execute
          incl_global category max_depth min_size yes) = w).
Proof.
  intros Hmode. unfold scan_command.
  destruct (min_bytes_of min_size) as [min_bytes|e]; [|done].
  destruct (scan_dir _ _ _ _ _ _) as [found|e]; [|done].
  set (ms := if incl_global then _ else _).
  destruct (show_results ms) as [out|e]; [|done].
  pose proof (clean_matches_disk w now confirm ms (negb execute)
                (path_str (fs_resolve (disk w) p)) yes) as Hdisk.
  pose proof (clean_matches_declined w now ms (path_str (fs_resolve (disk w) p)))
    as Hdeclined.
  destruct (clean_matches w now confirm ms (negb execute) _ yes) as [w' r] eqn:Hclean.
  simpl in *. split.
  - rewrite Hdisk. destruct Hmode as [->|[-> ->]]; [done|]. by destruct execute.
  - intros ->. destruct Hmode as [|[-> ->]]; [done|].
    simpl in Hclean. rewrite Hclean in Hdeclined. done.
Qed.

(** What [scan] lists is what it cleans: when the command returns, the
    minimum size was parsed, the list shown and handed to the cleaner is
    the result of the tree scan, with the global caches added if asked
    for; it is in descending order of size, every match in it has the size
    [get_size] gives and reaches the minimum; and the disk afterwards is
    the disk before, or in execute mode with the confirmation given or
    skipped, the disk after the attempts to delete these matches. *)
Theorem scan_command_cleans_what_it_lists (fuel : nat) (w : world fs text)
    (env : environment) (now : string) (confirm : bool) (p : path)
    (execute incl_global : bool) (category : list string) (max_depth : option Z)
    (min_size : string) (yes : bool) (ms : list Match) (rep : report) :
  snd (scan_command (float := float) fuel w env now confirm p execute
         incl_global category max_depth min_size yes) = Ok (ms, rep) ->
  exists min_bytes found,
    min_bytes_of (float := float) min_size = Ok min_bytes /\
    scan_dir fuel (disk w) p
      (match category with [] => None | _ => Some category end)
      max_depth min_bytes = Ok found /\
    ms ≡ₚ found ++ (if incl_global then scan_global (disk w) env min_bytes else []) /\
    size_descending ms /\
    Forall (reaches_threshold (disk w) min_bytes) ms /\
    disk (fst (scan_command (float := float) fuel w env now confirm p execute
                 incl_global category max_depth min_size yes)) =
      (if execute && (yes || confirm) then disk_after (disk w) ms else disk w).
Proof.
  unfold scan_command.
  destruct (min_bytes_of min_size) as [min_bytes|e]; [|done].
  destruct (scan_dir _ _ _ _ _ _) as [found|e] eqn:Hscan; [|done].
  set (listed := if incl_global then _ else _).
  destruct (show_results listed) as [out|e]; [|done].
  pose proof (clean_matches_disk w now confirm listed (negb execute)
                (path_str (fs_resolve (disk w) p)) yes) as Hdisk.
  destruct (clean_matches w now confirm listed (negb execute) _ yes) as [w' r].
  simpl in *. destruct r as [rep'|e]; [|done]. intros [= <- <-].
  exists min_bytes, found. split; [done|]. split; [done|].
  assert (size_descending found) as Hsorted.
  { unfold scan_dir in Hscan. destruct (scan _ _ _ _ _ _ _ _) as [st|e]; [|done].
    simpl in Hscan. injection Hscan as <-. apply sorted_by_size_desc_descending. }
  assert (Forall (reaches_threshold (disk w) min_bytes) found) as Hfound.
  { apply scan_dir_sound in Hscan as [Hsound _].
    eapply Forall_impl; [exact Hsound|]. intros m (_ & Hsize & Hle). by split. }
  split; [|split; [|split]].
  - subst listed. destruct incl_global.
    + apply sorted_by_size_desc_perm.
    + by rewrite app_nil_r.
  - subst listed. destruct incl_global; [apply sorted_by_size_desc_descending|done].
  - subst listed. destruct incl_global; [|done].
    rewrite sorted_by_size_desc_perm. apply Forall_app. split; [done|].
    apply scan_global_reaches.
  - rewrite Hdisk. by rewrite negb_involutive.
Qed.

End ScanCommand.

Lemma scan_command_deletes_on_request_only_witness :
  disk (fst (scan_command (float := Z) RECURSION_LIMIT locked_world
               (mkEnv (Ok ["home"; "dev"]) false) "2024-05-01T10:20:30.123456"
               false ["w"] false false [] None "1MB" false))
    = disk locked_world /\
  (false = true ->
   fst (scan_command (float := Z) RECURSION_LIMIT locked_world
          (mkEnv (Ok ["home"; "dev"]) false) "2024-05-01T10:20:30.123456"
          false ["w"] false false [] None "1MB" false) = locked_world).
Proof.
  apply (scan_command_deletes_on_request_only (float := Z)). by left.
Defined.

Lemma scan_command_cleans_what_it_lists_witness :
  exists min_bytes found,
    min_bytes_of (float := Z) "1MB" = Ok min_bytes /\
    scan_dir RECURSION_LIMIT (disk locked_world) ["w"] None None min_bytes = Ok found /\
    locked_matches ≡ₚ found ++ [] /\
    size_descending locked_matches /\
    Forall (reaches_threshold (disk locked_world) min_bytes) locked_matches /\
    disk (fst (scan_command (float := Z) RECURSION_LIMIT locked_world
                 (mkEnv (Ok ["home"; "dev"]) false) "2024-05-01T10:20:30.123456"
                 false ["w"] true false [] None "1MB" true)) =
      disk_after (disk locked_world) locked_matches.
Proof.
  apply (scan_command_cleans_what_it_lists (float := Z) RECURSION_LIMIT locked_world
           (mkEnv (Ok ["home"; "dev"]) false) "2024-05-01T10:20:30.123456"
           false ["w"] true false [] None "1MB" true locked_matches
           (Done 2 4194304)).
  vm_compute. reflexivity.
Defined.

Example scan_command_of_locked_tree :
  scan_command (float := Z) RECURSION_LIMIT locked_world
    (mkEnv (Ok ["home"; "dev"]) false) "2024-05-01T10:20:30.123456"
    false ["w"] true false [] None "1mb" true =
  (mkWorld
     (Posix.dir [ ("w", Posix.dir [ ("dist", Posix.Dir true false
                                                [ ("app.bin", Posix.File (2 * Posix.MiB)) ]) ]) ])
     (Some (Some (PList
        [ PDict [ ("date", PStr "2024-05-01T10:20");
                  ("path", PStr "/w");
                  ("size", PInt 4194304);
                  ("items", PInt 2);
                  ("dry_run", PBool false) ] ]))),
   Ok (locked_matches, Done 2 4194304)).
Proof. vm_compute. reflexivity. Qed.

(** ** The command [stats] *)

Lemma record_dry_run (c : session_call) :
  py_get (record_of c) "dry_run" (PBool true) = Returns (PBool (call_dry_run c)).
Proof. reflexivity. Qed.

Lemma record_size (c : session_call) :
  session_size (record_of c) = Returns (PInt (call_size c)).
Proof.
  unfold session_size.
  change (py_get (record_of c) "size" PNone) with (Returns (PInt (call_size c))).
  change (py_get (record_of c) "total_size_bytes" (PInt 0)) with (Returns (PInt 0)).
  simpl. by destruct (Z.eqb_spec (call_size c) 0) as [->|].
Qed.

Lemma cleaned_sessions_records (calls : list session_call) :
  cleaned_sessions (map record_of calls) = Returns (map record_of (executed calls)).
Proof.
  induction calls as [|c calls IH]; [done|].
  change (cleaned_sessions (map record_of (c :: calls))) with
    (match py_get (record_of c) "dry_run" (PBool true) with
     | Throws e => Throws e
     | Returns dry =>
         match cleaned_sessions (map record_of calls) with
         | Throws e => Throws e
         | Returns cleaned =>
             Returns (if truthy dry then cleaned else record_of c :: cleaned)
         end
     end).
  rewrite record_dry_run, IH. unfold executed. rewrite filter_cons.
  simpl truthy. destruct (call_dry_run c); by case_decide.
Qed.

Lemma sum_sizes_records (calls : list session_call) :
  forall n, sum_sizes (IntTotal n) (map record_of calls) =
            Returns (IntTotal (n + fold_right (fun c acc => call_size c + acc) 0 calls)).
Proof.
  induction calls as [|c calls IH]; intros n.
  - simpl. by rewrite Z.add_0_r.
  - change (sum_sizes (IntTotal n) (map record_of (c :: calls))) with
      (match session_size (record_of c) with
       | Throws e => Throws e
       | Returns v =>
           match add_value (IntTotal n) v with
           | Throws e => Throws e
           | Returns total' => sum_sizes total' (map record_of calls)
           end
       end).
    rewrite record_size. unfold add_value. rewrite IH. simpl. do 2 f_equal. lia.
Qed.

Lemma last_100_map {A B} (f : A -> B) (l : list A) :
  last_100 (map f l) = map f (last_100 l).
Proof. unfold last_100. rewrite length_map. symmetry. apply (fmap_drop f). Qed.

Section StatsProofs.
Context {text : Type} `{JsonCodec text}.

Lemma stats_of_records (file : option text) (calls : list session_call) :
  load_history file = PList (map record_of calls) ->
  stats file =
    match fmt_size (bytes_saved calls) with
    | Ok saved =>
        Returns (StatsPanel (Z.of_nat (length calls))
                            (Z.of_nat (length (executed calls))) (Some saved))
    | Raise e => Throws (Builtin e)
    end.
Proof.
  intros Hload. unfold stats. rewrite Hload. unfold py_iter.
  rewrite cleaned_sessions_records, sum_sizes_records, !length_map.
  by rewrite Z.add_0_l.
Qed.

(** [stats] counts the executed cleans of the history: after a run of
    calls of [add_session] on an empty history, the panel gives the number
    of records kept (the last 100), the number of those that were not dry
    runs, and the sum of the sizes of those, printed by [fmt_size]; dry
    runs add nothing to the total, and what fell out of the last 100 is
    forgotten. *)
Theorem stats_counts_executed_cleans (file : option text)
    (calls : list session_call) :
  round_trip ->
  load_history file = PList [] ->
  exists file',
    add_sessions file calls = Ok file' /\
    stats file' =
      match fmt_size (bytes_saved (last_100 calls)) with
      | Ok saved =>
          Returns (StatsPanel (Z.of_nat (length (last_100 calls)))
                              (Z.of_nat (length (executed (last_100 calls))))
                              (Some saved))
      | Raise e => Throws (Builtin e)
      end.
Proof.
  intros Hrt Hload.
  destruct (add_sessions_load calls Hrt file [] Hload) as (file' & Hrun & Hload').
  exists file'. split; [done|]. apply stats_of_records.
  rewrite Hload'. destruct calls as [|c calls]; [done|].
  by rewrite app_nil_l, last_100_map.
Qed.

(** [stats] needs records that are dictionaries: a history list with an
    item of any other kind makes it raise [AttributeError]. *)
Theorem stats_raises_on_foreign_item (file : option text) (items : list pyval)
    (item : pyval) :
  load_history file = PList items ->
  item ∈ items ->
  (forall d, item <> PDict d) ->
  stats file = Throws (Builtin AttributeError).
Proof.
  intros Hload Hin Hforeign. unfold stats. rewrite Hload. unfold py_iter.
  assert (cleaned_sessions items = Throws (Builtin AttributeError)) as ->; [|done].
  clear Hload. induction items as [|s rest IH]; [by apply elem_of_nil in Hin|].
  destruct s as [| | | | | |d]; try reflexivity.
  apply elem_of_cons in Hin as [->|Hin]; [by destruct (Hforeign d)|].
  cbn [cleaned_sessions py_get]. by rewrite (IH Hin).
Qed.

End StatsProofs.

Lemma stats_counts_executed_cleans_witness :
  exists file' : option (option pyval),
    add_sessions None three_calls = Ok file' /\
    stats file' =
      match fmt_size (bytes_saved (last_100 three_calls)) with
      | Ok saved =>
          Returns (StatsPanel (Z.of_nat (length (last_100 three_calls)))
                              (Z.of_nat (length (executed (last_100 three_calls))))
                              (Some saved))
      | Raise e => Throws (Builtin e)
      end.
Proof.
  apply (stats_counts_executed_cleans None three_calls).
  - intros v. reflexivity.
  - reflexivity.
Defined.

Lemma stats_raises_on_foreign_item_witness :
  stats (Some (Some (PList [record_of (mkCall "2024-05-01T10:20" "/w" 5 1 false);
                            PStr "note"])))
    = Throws (Builtin AttributeError).
Proof.
  apply (stats_raises_on_foreign_item
           (Some (Some (PList [record_of (mkCall "2024-05-01T10:20" "/w" 5 1 false);
                               PStr "note"])))
           [record_of (mkCall "2024-05-01T10:20" "/w" 5 1 false); PStr "note"]
           (PStr "note")).
  - reflexivity.
  - apply elem_of_cons. right. apply elem_of_cons. by left.
  - discriminate.
Defined.

Example stats_of_three_calls :
  (file' ← add_sessions (None : option (option pyval)) three_calls; Ok (stats file')) =
  Ok (Returns (StatsPanel 3 2 (Some "3.0 MB"))).
Proof. vm_compute. reflexivity. Qed.

Example stats_of_old_history :
  stats (history project_world) = Returns (StatsPanel 1 0 (Some "0 B")).
Proof. vm_compute. reflexivity. Qed.
